(** * logrus-logstash-hook: the Logstash encoder and the asynchronous hook

    A shallow embedding of [logstash_writer.go] (the encoder) and of the hook
    file (the producer-side [Fire], the dispatch queue, the buffer pool, the
    connection pool and the background sender), followed by the properties
    the specification states about them. *)

From Stdlib Require Import ZArith String Ascii List.
From stdpp Require Import gmap strings list fin_maps sorting pretty.

Local Open Scope string_scope.

(** ** Go strings *)

Module strings.

(** [strings.HasPrefix(s, prefix)]. *)
Fixpoint HasPrefix (s prefix : string) : bool :=
  match prefix, s with
  | EmptyString, _ => true
  | String _ _, EmptyString => false
  | String p prefix', String c s' =>
      if Ascii.eqb p c then HasPrefix s' prefix' else false
  end.

(** The bytes of [s] after its first [n] bytes: the slice [s[n:]]. *)
Fixpoint drop_bytes (n : nat) (s : string) : string :=
  match n, s with
  | O, _ => s
  | S _, EmptyString => EmptyString
  | S n', String _ s' => drop_bytes n' s'
  end.

(** [strings.TrimPrefix(s, prefix)]: [s] without the leading [prefix], and
    [s] itself when it does not start with [prefix]. *)
Definition TrimPrefix (s prefix : string) : string :=
  if HasPrefix s prefix then drop_bytes (String.length prefix) s else s.

End strings.

(** ** Values of a field mapping

    [logrus.Fields] is [map[string]interface{}].  The dynamic values are
    modelled by a closed variant: text, integers, booleans, the nil
    interface, an [error] (carrying what its [Error()] method returns), and
    a channel, which stands for the values [encoding/json] refuses to
    marshal. *)

Inductive Value : Type :=
  | VStr (s : string)
  | VInt (z : Z)
  | VBool (b : bool)
  | VNil
  | VErr (msg : string)
  | VChan.

#[global] Instance Value_eq_dec : EqDecision Value.
Proof. solve_decision. Defined.

Abbreviation Fields := (gmap string Value).

(** A Go [error] value is its message; [None] is the nil error. *)
Definition error := option string.

(** ** logrus *)

Module logrus.

Inductive Level : Type :=
  | PanicLevel | FatalLevel | ErrorLevel | WarnLevel | InfoLevel | DebugLevel.

(** [Level.String()], the canonical lowercase name of a level. *)
Definition Level_String (l : Level) : string :=
  match l with
  | DebugLevel => "debug"
  | InfoLevel => "info"
  | WarnLevel => "warning"
  | ErrorLevel => "error"
  | FatalLevel => "fatal"
  | PanicLevel => "panic"
  end.

End logrus.

(** ** What the Go runtime and its libraries provide

    The encoder calls into [time], [encoding/json] and the map iteration of
    the runtime.  They are taken as parameters:
    - [time_Time] and [Time_Format], the type [time.Time] and its method
      [Format(layout)];
    - [defaultTimestampFormat], the package constant used when the writer
      has no timestamp format;
    - [json_Marshal], the JSON encoding of a field mapping ([inl] the
      document, [inr] the error of a value that cannot be encoded);
    - [map_range], the order in which a [for k, v := range m] loop visits
      the entries of [m].  Go leaves the order unspecified; every entry is
      visited once. *)

Class GoRuntime : Type := {
  time_Time : Type;
  Time_Format : time_Time → string → string;
  defaultTimestampFormat : string;
  json_Marshal : Fields → string + string;
  map_range : Fields → list (string * Value);
  map_range_perm : ∀ m : Fields, map_range m ≡ₚ map_to_list m
}.

(** The Go string ["\n"]. *)
Definition newline : string := String "010"%char EmptyString.

(** ** [io.Writer] *)

(** [Write(p)] returns the writer after the call, the number of bytes
    written and the error. *)
Class Writer (W : Type) : Type :=
  Write : W → string → W * (nat * error).

(** A [bytes.Buffer] is its contents.  [Buffer.Write] appends and its
    error is always nil. *)
Definition Buffer := string.

#[global] Instance Buffer_Writer : Writer Buffer :=
  fun b p => (b ++ p, (String.length p, None)).

(** A writer whose every [Write] fails, such as a closed connection. *)
Inductive Broken : Type := broken.

#[global] Instance Broken_Writer : Writer Broken :=
  fun w _ => (w, (0%nat, Some "write: broken pipe")).

(** A writer that keeps the chunks it was given, one for each [Write]
    call, such as a datagram socket. *)
Definition Recorder := list string.

#[global] Instance Recorder_Writer : Writer Recorder :=
  fun w p => ((w ++ [p])%list, (String.length p, None)).



(** ** The hook's data *)

(** A [*bytes.Buffer]: the address of a buffer in the heap. *)
Definition BufPtr := nat.

(** A [net.Conn], identified by a number. *)
Definition Conn := nat.

Module sendMessage.
Record t : Type := mk {
  protocol : string;
  address : string;
  data : BufPtr
}.
End sendMessage.

Module Hook.
Record t : Type := mk {
  protocol : string;
  address : string;
  filtering : bool;
  appName : string;
  alwaysSentFields : Fields;
  hookOnlyPrefix : string
}.
End Hook.

Module LogstashWriter.
Record t : Type := mk {
  Type_ : string;
  TimestampFormat : string
}.
End LogstashWriter.

(** What the background sender does to the outside world, in the order it
    does it. *)
Inductive Event : Type :=
  | EvWrite (c : Conn) (p : string) (err : error)
  | EvDial (protocol address : string) (res : Conn + string)
  | EvPut (b : BufPtr)
  | EvStderr (s : string).

#[global] Instance Event_eq_dec : EqDecision Event.
Proof. solve_decision. Defined.

(** The network: what [net.Dial] and [Conn.Write] answer, given everything
    that happened before. *)
Record Network : Type := {
  net_Dial : list Event → string → string → Conn + string;
  Conn_Write : list Event → Conn → string → nat * error
}.

(** The process-wide state: the three package variables, the heap of
    buffers the pointers refer to, and the events so far. *)
Record World : Type := mkWorld {
  entryChan : list sendMessage.t;
  formatBuff : list BufPtr;
  connPool : gmap string Conn;
  heap : gmap BufPtr Buffer;
  trace : list Event
}.

(** The capacity of [entryChan]: [make(chan sendMessage, 1000)]. *)
Definition entryChan_cap : nat := 1000.

Definition set_entryChan (q : list sendMessage.t) (w : World) : World :=
  mkWorld q (formatBuff w) (connPool w) (heap w) (trace w).
Definition set_formatBuff (p : list BufPtr) (w : World) : World :=
  mkWorld (entryChan w) p (connPool w) (heap w) (trace w).
Definition set_connPool (c : gmap string Conn) (w : World) : World :=
  mkWorld (entryChan w) (formatBuff w) c (heap w) (trace w).
Definition set_heap (h : gmap BufPtr Buffer) (w : World) : World :=
  mkWorld (entryChan w) (formatBuff w) (connPool w) h (trace w).
Definition emit (e : Event) (w : World) : World :=
  mkWorld (entryChan w) (formatBuff w) (connPool w) (heap w) (trace w ++ [e]).

(** ** The program *)

Section Program.
Context `{RT : GoRuntime}.

(** [logrus.Entry]: the fields the hook reads. *)
Record Entry : Type := mkEntry {
  Data : Fields;
  Time : time_Time;
  Level : logrus.Level;
  Message : string
}.

Definition set_Data (d : Fields) (entry : Entry) : Entry :=
  mkEntry d (Time entry) (Level entry) (Message entry).

(** *** logstash_writer.go *)

(** The key a record field is sent under: the prefix is removed when there
    is one and the field name starts with it. *)
Definition sentKey (prefix k : string) : string :=
  if negb (String.eqb prefix "") && strings.HasPrefix k prefix
  then strings.TrimPrefix k prefix
  else k.

(** The type switch of the copy loop: an [error] is replaced by its
    [Error()] text. *)
Definition sentValue (v : Value) : Value :=
  match v with
  | VErr msg => VStr msg
  | _ => v
  end.

(** The loop [for k, v := range entry.Data] over the entries in the order
    [l], started with the mapping [fields]. *)
Definition copyFields (prefix : string) (l : list (string * Value))
    (fields : Fields) : Fields :=
  foldl (fun fields kv => <[sentKey prefix kv.1 := sentValue kv.2]> fields)
        fields l.

(** [v, ok := data[key]; if ok { fields[moved] = v }]. *)
Definition moveCollision (data : Fields) (key moved : string)
    (fields : Fields) : Fields :=
  match data !! key with
  | Some v => <[moved := v]> fields
  | None => fields
  end.

(** The mapping [fields] of [WriteWithPrefix] when it reaches the JSON
    encoder. *)
Definition buildFields (w : LogstashWriter.t) (entry : Entry)
    (prefix : string) : Fields :=
  let fields := copyFields prefix (map_range (Data entry)) ∅ in
  let fields := <["@version" := VStr "1"]> fields in
  let timeStampFormat :=
    if String.eqb (LogstashWriter.TimestampFormat w) ""
    then defaultTimestampFormat
    else LogstashWriter.TimestampFormat w in
  let fields :=
    <["@timestamp" := VStr (Time_Format (Time entry) timeStampFormat)]> fields in
  let fields := moveCollision (Data entry) "message" "fields.message" fields in
  let fields := <["message" := VStr (Message entry)]> fields in
  let fields := moveCollision (Data entry) "level" "fields.level" fields in
  let fields := <["level" := VStr (logrus.Level_String (Level entry))]> fields in
  if negb (String.eqb (LogstashWriter.Type_ w) "")
  then
    let fields := moveCollision (Data entry) "type" "fields.type" fields in
    <["type" := VStr (LogstashWriter.Type_ w)]> fields
  else fields.

(** The keys [WriteWithPrefix] sets itself. *)
Definition reservedKeys : list string :=
  ["@version"; "@timestamp"; "message"; "level"; "type";
   "fields.message"; "fields.level"; "fields.type"].

(** [json.NewEncoder(writer).Encode(v)].  [encoding/json] documents it as
    writing the JSON encoding of [v] to the stream, followed by a newline
    character; the value is encoded in full before anything is written, and
    both are handed to the writer in one [Write]. *)
Definition Encode {W : Type} `{Writer W} (writer : W) (v : Fields)
    : W * error :=
  match json_Marshal v with
  | inr err => (writer, Some err)
  | inl b => let r := Write writer (b ++ newline) in (r.1, r.2.2)
  end.

(** [fmt.Errorf("Failed to marshal fields to JSON, %v", err)]. *)
Definition marshalError (err : string) : string :=
  "Failed to marshal fields to JSON, " ++ err.

Definition WriteWithPrefix {W : Type} `{Writer W} (w : LogstashWriter.t)
    (writer : W) (entry : Entry) (prefix : string) : W * error :=
  let fields := buildFields w entry prefix in
  match Encode writer fields with
  | (writer, Some err) => (writer, Some (marshalError err))
  | (writer, None) =>
      match Write writer newline with
      | (writer, (_, Some err)) => (writer, Some (marshalError err))
      | (writer, (_, None)) => (writer, None)
      end
  end.

Definition LogstashWriter_Write {W : Type} `{Writer W} (w : LogstashWriter.t)
    (writer : W) (entry : Entry) : W * error :=
  WriteWithPrefix w writer entry "".

(** *** The hook *)

(** The loop of [filterHookOnly] over the keys in the order [keys]:
    [delete(entry.Data, key)] for each key that starts with the prefix. *)
Definition deletePrefixed (prefix : string) (keys : list string)
    (data : Fields) : Fields :=
  foldl (fun data key =>
           if strings.HasPrefix key prefix then delete key data else data)
        data keys.

Definition filterHookOnly (h : Hook.t) (entry : Entry) : Entry :=
  if negb (String.eqb (Hook.hookOnlyPrefix h) "")
  then set_Data (deletePrefixed (Hook.hookOnlyPrefix h)
                   (map_range (Data entry)).*1 (Data entry)) entry
  else entry.

Definition WithPrefix (h : Hook.t) (prefix : string) : Hook.t :=
  Hook.mk (Hook.protocol h) (Hook.address h) (Hook.filtering h)
    (Hook.appName h) (Hook.alwaysSentFields h) prefix.

Definition set_alwaysSentFields (f : Fields) (h : Hook.t) : Hook.t :=
  Hook.mk (Hook.protocol h) (Hook.address h) (Hook.filtering h)
    (Hook.appName h) f (Hook.hookOnlyPrefix h).

Definition WithField (h : Hook.t) (key : string) (value : Value) : Hook.t :=
  set_alwaysSentFields (<[key := value]> (Hook.alwaysSentFields h)) h.

Definition WithFields (h : Hook.t) (fields : Fields) : Hook.t :=
  set_alwaysSentFields
    (foldl (fun m kv => <[kv.1 := kv.2]> m) (Hook.alwaysSentFields h)
       (map_range fields)) h.

(** The first loop of [Fire] over the default fields in the order [l]:
    a default is stored only under a key the record does not have. *)
Definition addAlwaysSent (l : list (string * Value)) (data : Fields)
    : Fields :=
  foldl (fun data kv =>
           match data !! kv.1 with
           | Some _ => data
           | None => <[kv.1 := kv.2]> data
           end)
        data l.

(** [formatBuff.Get()] followed by [Reset()].  The pool hands out an idle
    buffer when it has one and otherwise calls [New], which allocates a
    buffer at an unused address.  ([sync.Pool] is free to forget idle
    buffers and to pick any of them; the first one is taken here.) *)
Definition getFormatBuf (w : World) : BufPtr * World :=
  match formatBuff w with
  | b :: idle => (b, set_heap (<[b := ""]> (heap w)) (set_formatBuff idle w))
  | [] => let b := fresh (dom (heap w)) in
          (b, set_heap (<[b := ""]> (heap w)) w)
  end.

(** [select { case entryChan <- m: default: }]: the send happens when the
    channel has room, and nothing happens when it is full. *)
Definition trySend (m : sendMessage.t) (w : World) : World :=
  if decide (length (entryChan w) < entryChan_cap)%nat
  then set_entryChan (entryChan w ++ [m]) w
  else w.

(** [Fire]: the record after the call (its field mapping is mutated in
    place), the state after the call, and the returned error.  The deferred
    [filterHookOnly] runs on every return path. *)
Definition Fire (h : Hook.t) (entry : Entry) (w : World)
    : Entry * World * error :=
  let entry :=
    set_Data (addAlwaysSent (map_range (Hook.alwaysSentFields h)) (Data entry))
      entry in
  if Hook.filtering h then (filterHookOnly h entry, w, None)
  else
    let (buff, w) := getFormatBuf w in
    let writer := LogstashWriter.mk (Hook.appName h) "" in
    let (contents, err) :=
      WriteWithPrefix writer (default "" (heap w !! buff)) entry
        (Hook.hookOnlyPrefix h) in
    let w := set_heap (<[buff := contents]> (heap w)) w in
    match err with
    | Some e => (filterHookOnly h entry, w, Some e)
    | None =>
        let w := trySend (sendMessage.mk (Hook.protocol h) (Hook.address h)
                            buff) w in
        (filterHookOnly h entry, w, None)
    end.

(** The record [Fire] encodes: the caller's record with the default fields
    merged in. *)
Definition mergedEntry (h : Hook.t) (entry : Entry) : Entry :=
  set_Data (addAlwaysSent (map_range (Hook.alwaysSentFields h)) (Data entry))
    entry.

(** The mapping [Fire] hands to the JSON encoder. *)
Definition encodedFields (h : Hook.t) (entry : Entry) : Fields :=
  buildFields (LogstashWriter.mk (Hook.appName h) "") (mergedEntry h entry)
    (Hook.hookOnlyPrefix h).

(** The error of encoding that mapping, nil when it can be encoded. *)
Definition encodeError (h : Hook.t) (entry : Entry) : error :=
  match json_Marshal (encodedFields h entry) with
  | inl _ => None
  | inr err => Some (marshalError err)
  end.

(** The task [Fire] builds for the buffer [b]. *)
Definition taskOf (h : Hook.t) (b : BufPtr) : sendMessage.t :=
  sendMessage.mk (Hook.protocol h) (Hook.address h) b.

(** The constructors.  [make(logrus.Fields)] is the empty mapping, and the
    fields a composite literal leaves out have their zero values. *)
Definition NewHookWithFieldsAndPrefix (protocol address appName : string)
    (alwaysSentFields : Fields) (prefix : string) : Hook.t :=
  Hook.mk protocol address false appName alwaysSentFields prefix.

Definition NewHookWithFields (protocol address appName : string)
    (alwaysSentFields : Fields) : Hook.t :=
  NewHookWithFieldsAndPrefix protocol address appName alwaysSentFields "".

Definition NewHook (protocol address appName : string) : Hook.t :=
  NewHookWithFields protocol address appName ∅.

Definition NewFilterHookWithPrefix (prefix : string) : Hook.t :=
  Hook.mk "" "" true "" ∅ prefix.

Definition NewFilterHook : Hook.t := NewFilterHookWithPrefix "".

Definition Levels (h : Hook.t) : list logrus.Level :=
  [logrus.PanicLevel; logrus.FatalLevel; logrus.ErrorLevel;
   logrus.WarnLevel; logrus.InfoLevel; logrus.DebugLevel].

(** *** The background sender *)

Section Sender.
Variable net : Network.

(** The key of the connection pool: [protocol + ":" + address]. *)
Definition poolKey (d : sendMessage.t) : string :=
  sendMessage.protocol d ++ ":" ++ sendMessage.address d.

(** [data.data.Bytes()]. *)
Definition Bytes (d : sendMessage.t) (w : World) : string :=
  default "" (heap w !! sendMessage.data d).

(** [conn.Write(p)] on a network connection. *)
Definition connWrite (c : Conn) (p : string) (w : World)
    : World * (nat * error) :=
  let r := Conn_Write net (trace w) c p in
  (emit (EvWrite c p r.2) w, r).

(** [net.Dial(protocol, address)]. *)
Definition Dial (protocol address : string) (w : World)
    : World * (Conn + string) :=
  let r := net_Dial net (trace w) protocol address in
  (emit (EvDial protocol address r) w, r).

(** The second half of [sendDataAndRetry]: dial, store the connection,
    write once. *)
Definition dialAndWrite (d : sendMessage.t) (w : World)
    : World * (nat * error) :=
  match Dial (sendMessage.protocol d) (sendMessage.address d) w with
  | (w, inr err) => (w, (0%nat, Some err))
  | (w, inl conn) =>
      let w := set_connPool (<[poolKey d := conn]> (connPool w)) w in
      connWrite conn (Bytes d w) w
  end.

Definition sendDataAndRetry (d : sendMessage.t) (w : World)
    : World * (nat * error) :=
  match connPool w !! poolKey d with
  | Some conn =>
      match connWrite conn (Bytes d w) w with
      | (w, (n, None)) => (w, (n, None))
      | (w, (_, Some _)) => dialAndWrite d w
      end
  | None => dialAndWrite d w
  end.

(** The body of the loop of [processEntryData] for the task [d]. *)
Definition processEntry (d : sendMessage.t) (w : World) : World :=
  let (w, r) := sendDataAndRetry d w in
  let w := emit (EvPut (sendMessage.data d))
             (set_formatBuff (sendMessage.data d :: formatBuff w) w) in
  match r.2 with
  | Some err => emit (EvStderr ("Error sending data to logstash: " ++ err)) w
  | None => w
  end.

(** One turn of [for d := range data]: the oldest task is received and
    processed; on an empty channel the sender waits ([None]). *)
Definition senderStep (w : World) : option World :=
  match entryChan w with
  | [] => None
  | d :: q => Some (processEntry d (set_entryChan q w))
  end.

(** [n] turns of the loop, stopping early where the sender waits. *)
Fixpoint runSender (n : nat) (w : World) : World :=
  match n with
  | O => w
  | S n' =>
      match senderStep w with
      | None => w
      | Some w' => runSender n' w'
      end
  end.

(** [processEntryData] on the tasks queued in [w]: they are processed
    oldest first, and then the sender waits on the empty channel. *)
Definition processEntryData (w : World) : World :=
  runSender (length (entryChan w)) w.

(** *** What the specification says of one task

    The sender's policy in the specification's words, as a relation between
    the state [w] in which the task [d] has been received and the state [w']
    in which the sender turns to the next task. *)

Definition sendReport (r : error) : list Event :=
  match r with
  | Some err => [EvStderr ("Error sending data to logstash: " ++ err)]
  | None => []
  end.

(** There is no pooled connection for the endpoint, or there is one and the
    write attempted on it failed. *)
Inductive FirstAttemptFailed (d : sendMessage.t) (w : World)
    : list Event → Prop :=
  | no_pooled_connection :
      connPool w !! poolKey d = None →
      FirstAttemptFailed d w []
  | pooled_write_failed (c : Conn) (n : nat) (err : string) :
      connPool w !! poolKey d = Some c →
      Conn_Write net (trace w) c (Bytes d w) = (n, Some err) →
      FirstAttemptFailed d w [EvWrite c (Bytes d w) (Some err)].

Inductive SenderOutcome (d : sendMessage.t) (w w' : World) : Prop :=
  | pooled_write_succeeded (c : Conn) (n : nat) :
      connPool w !! poolKey d = Some c →
      Conn_Write net (trace w) c (Bytes d w) = (n, None) →
      trace w' = (trace w ++
        [EvWrite c (Bytes d w) None; EvPut (sendMessage.data d)])%list →
      connPool w' = connPool w →
      SenderOutcome d w w'
  | dial_failed (first : list Event) (err : string) :
      FirstAttemptFailed d w first →
      net_Dial net (trace w ++ first)%list (sendMessage.protocol d)
        (sendMessage.address d) = inr err →
      trace w' = (trace w ++ first ++
        [EvDial (sendMessage.protocol d) (sendMessage.address d) (inr err);
         EvPut (sendMessage.data d)] ++ sendReport (Some err))%list →
      connPool w' = connPool w →
      SenderOutcome d w w'
  | dialed_and_wrote_once (first : list Event) (c : Conn) (n : nat)
      (r : error) :
      FirstAttemptFailed d w first →
      net_Dial net (trace w ++ first)%list (sendMessage.protocol d)
        (sendMessage.address d) = inl c →
      Conn_Write net
        (trace w ++ first ++
           [EvDial (sendMessage.protocol d) (sendMessage.address d) (inl c)])%list
        c (Bytes d w) = (n, r) →
      trace w' = (trace w ++ first ++
        [EvDial (sendMessage.protocol d) (sendMessage.address d) (inl c);
         EvWrite c (Bytes d w) r; EvPut (sendMessage.data d)] ++
        sendReport r)%list →
      connPool w' = <[poolKey d := c]> (connPool w) →
      SenderOutcome d w w'.

End Sender.

(** *** The system as a whole

    Producers call [Fire] and the sender takes its turns, in any order. *)

Inductive step (net : Network) (w : World) : World → Prop :=
  | step_Fire (h : Hook.t) (entry : Entry) :
      step net w (Fire h entry w).1.2
  | step_sender (w' : World) :
      senderStep net w = Some w' → step net w w'.

(** The buffers the pool and the queue refer to. *)
Definition ownedBuffers (w : World) : list BufPtr :=
  formatBuff w ++ (sendMessage.data <$> entryChan w).

(** An idle buffer is not queued, no buffer is idle or queued twice, and
    all of them are allocated. *)
Definition BuffersOwned (w : World) : Prop :=
  NoDup (ownedBuffers w) ∧
  Forall (fun b => b ∈ dom (heap w)) (ownedBuffers w).

#[global] Instance BuffersOwned_dec (w : World) : Decision (BuffersOwned w).
Proof. unfold BuffersOwned. apply _. Defined.

(** The buffer [b] is allocated, and neither idle in the pool nor queued. *)
Definition Lost (b : BufPtr) (w : World) : Prop :=
  b ∈ dom (heap w) ∧ b ∉ ownedBuffers w.

(** Since the state [w0] the sender has not put [b] back into the pool. *)
Definition NoPutSince (b : BufPtr) (w0 w : World) : Prop :=
  ∃ evs, trace w = (trace w0 ++ evs)%list ∧ EvPut b ∉ evs.

(** The payloads written to connections and the endpoints dialed, among
    the events [evs]. *)
Definition writtenPayloads (evs : list Event) : list string :=
  omap (fun e => match e with EvWrite _ p _ => Some p | _ => None end) evs.
Definition dialedEndpoints (evs : list Event) : list (string * string) :=
  omap (fun e => match e with EvDial p a _ => Some (p, a) | _ => None end) evs.
Definition isStderr (e : Event) : bool :=
  match e with EvStderr _ => true | _ => false end.
Definition isDelivered (e : Event) : bool :=
  match e with EvWrite _ _ None => true | _ => false end.

(** Counting the events of a kind. *)
Definition isDial (e : Event) : bool :=
  match e with EvDial _ _ _ => true | _ => false end.
Definition isWrite (e : Event) : bool :=
  match e with EvWrite _ _ _ => true | _ => false end.
Definition isPut (e : Event) : bool :=
  match e with EvPut _ => true | _ => false end.
Definition countEvents (f : Event → bool) (evs : list Event) : nat :=
  length (List.filter f evs).

(** The events added to the trace between [w] and [w']. *)
Definition newEvents (w w' : World) : list Event :=
  drop (length (trace w)) (trace w').

End Program.

(** ** A concrete runtime

    For evaluating the program on concrete records: the JSON text that
    [encoding/json] produces for the values of [Value], the iteration order
    of [map_to_list], and a clock that only knows the zero [time.Time].
    The lemmas of the next part hold for every runtime; this one serves the
    examples that follow them. *)

Module GoJSON.

Definition quote : ascii := "034"%char.

Definition hexDigit (n : N) : ascii :=
  match n with
  | 0%N => "0" | 1%N => "1" | 2%N => "2" | 3%N => "3" | 4%N => "4"
  | 5%N => "5" | 6%N => "6" | 7%N => "7" | 8%N => "8" | 9%N => "9"
  | 10%N => "a" | 11%N => "b" | 12%N => "c" | 13%N => "d" | 14%N => "e"
  | _ => "f"
  end%char.

(** A byte as [\u00XX]. *)
Definition unicodeEscape (c : ascii) : string :=
  let n := N_of_ascii c in
  "\u00" ++ String (hexDigit (n / 16)) (String (hexDigit (n mod 16)) "").

(** The encoding of one byte inside a JSON string, with the HTML escaping
    the encoder has by default.  Bytes from 128 on are taken to be part of
    valid UTF-8 text and are copied. *)
Definition escapeByte (c : ascii) : string :=
  let n := N_of_ascii c in
  if (n =? 34)%N then String "\" (String quote "")
  else if (n =? 92)%N then "\\"
  else if (n =? 10)%N then "\n"
  else if (n =? 13)%N then "\r"
  else if (n =? 9)%N then "\t"
  else if (n <? 32)%N then unicodeEscape c
  else if (n =? 60)%N || (n =? 62)%N || (n =? 38)%N then unicodeEscape c
  else String c "".

Fixpoint escapeString (s : string) : string :=
  match s with
  | EmptyString => ""
  | String c s' => escapeByte c ++ escapeString s'
  end.

Definition encodeString (s : string) : string :=
  String quote (escapeString s) ++ String quote "".

(** One value: an [error] made by [errors.New] has no exported field and
    is encoded as the empty object; a channel is refused. *)
Definition encodeValue (v : Value) : string + string :=
  match v with
  | VStr s => inl (encodeString s)
  | VInt z => inl (pretty z)
  | VBool true => inl "true"
  | VBool false => inl "false"
  | VNil => inl "null"
  | VErr _ => inl "{}"
  | VChan => inr "json: unsupported type: chan int"
  end.

Definition keyLe (a b : string * Value) : Prop := String.leb a.1 b.1 = true.

#[global] Instance keyLe_dec : RelDecision keyLe.
Proof. intros a b. unfold keyLe. apply _. Defined.

Fixpoint encodeMembers (l : list (string * Value)) : string + string :=
  match l with
  | [] => inl ""
  | (k, v) :: l' =>
      match encodeValue v, encodeMembers l' with
      | inr e, _ => inr e
      | _, inr e => inr e
      | inl jv, inl rest =>
          inl (encodeString k ++ ":" ++ jv ++
               match l' with [] => "" | _ => "," ++ rest end)
      end
  end.

(** A map is encoded as an object whose members are sorted by key. *)
Definition Marshal (m : Fields) : string + string :=
  match encodeMembers (merge_sort keyLe (map_to_list m)) with
  | inl members => inl ("{" ++ members ++ "}")
  | inr e => inr e
  end.

End GoJSON.

(** [time.RFC3339]. *)
Definition RFC3339 : string := "2006-01-02T15:04:05Z07:00".

#[global] Instance exampleRuntime : GoRuntime := {|
  time_Time := unit;
  Time_Format := fun _ _ => "0001-01-01T00:00:00Z";
  defaultTimestampFormat := RFC3339;
  json_Marshal := GoJSON.Marshal;
  map_range := map_to_list;
  map_range_perm := fun m => reflexivity (map_to_list m)
|}.

(** ** Concrete hooks, records and states *)

(** The hook and the record of [TestFire]. *)
Definition fireHook : Hook.t :=
  Hook.mk "udp" "localhost:9999" false "fire_test"
    (list_to_map [("test-name", VStr "fire-test"); ("->ignore", VStr "haaa");
                  ("override", VStr "no")])
    "->".

Definition fireEntry : Entry :=
  mkEntry (<["override" := VStr "yes"]> ∅) tt logrus.DebugLevel
    "hello world!".

(** A filter-only hook with the defaults of [TestFireFilterHook]. *)
Definition filterHook : Hook.t :=
  Hook.mk "" "" true ""
    (list_to_map [("test-name", VStr "fire-test-hook");
                  ("_ignore", VStr "haaa"); ("override", VStr "no")])
    "_".

(** A record with a field that [encoding/json] cannot encode. *)
Definition chanEntry : Entry :=
  mkEntry (<["done" := VChan]> ∅) tt logrus.InfoLevel "closing".


(** A record with an [error] among its fields. *)
Definition errorEntry : Entry :=
  mkEntry (<["cause" := VErr "disk full"]> ∅) tt logrus.ErrorLevel
    "write failed".

(** A record with two fields that the prefix [->] sends under one key. *)
Definition clashEntry : Entry :=
  mkEntry (<["->user" := VStr "hidden"]> (<["user" := VStr "shown"]> ∅)) tt
    logrus.InfoLevel "login".

(** A record without fields. *)
Definition plainEntry : Entry := mkEntry ∅ tt logrus.InfoLevel "hi".

(** The state at process start. *)
Definition startWorld : World := mkWorld [] [] ∅ ∅ [].

(** The state of [TestFire]: a connection for the endpoint is pooled. *)
Definition pooledWorld : World :=
  mkWorld [] [] (<["udp:localhost:9999" := 1%nat]> ∅) ∅ [].

(** A state with one idle buffer and one queued task. *)
Definition busyWorld : World :=
  mkWorld [sendMessage.mk "udp" "localhost:9999" 5] [3%nat] ∅
    (<[3%nat := "old"]> (<[5%nat := "queued"]> ∅)) [].

(** A state whose queue holds 1000 tasks, each with its own buffer. *)
Definition fullWorld : World :=
  mkWorld ((fun b => sendMessage.mk "udp" "localhost:9999" b) <$> seq 0 1000)
    [] ∅ (list_to_map ((fun b => (b, "queued")) <$> seq 0 1000)) [].

(** A network where every dial and every write succeeds, and one where
    nothing does. *)
Definition upNet : Network :=
  {| net_Dial := fun _ _ _ => inl 2%nat;
     Conn_Write := fun _ _ p => (String.length p, None) |}.

Definition downNet : Network :=
  {| net_Dial := fun _ _ _ => inr "dial: connection refused";
     Conn_Write := fun _ _ _ => (0%nat, Some "write: broken pipe") |}.

(** A network where the pooled connection 1 is dead and a new one works. *)
Definition staleNet : Network :=
  {| net_Dial := fun _ _ _ => inl 2%nat;
     Conn_Write := fun _ c p =>
       if Nat.eqb c 1 then (0%nat, Some "write: broken pipe")
       else (String.length p, None) |}.

(** The JSON text of a string. *)
Local Abbreviation q := GoJSON.encodeString.

(** The line [TestFire] decodes. *)
Definition fireDocument : string :=
  "{" ++ q "@timestamp" ++ ":" ++ q "0001-01-01T00:00:00Z" ++ "," ++
  q "@version" ++ ":" ++ q "1" ++ "," ++
  q "ignore" ++ ":" ++ q "haaa" ++ "," ++
  q "level" ++ ":" ++ q "debug" ++ "," ++
  q "message" ++ ":" ++ q "hello world!" ++ "," ++
  q "override" ++ ":" ++ q "yes" ++ "," ++
  q "test-name" ++ ":" ++ q "fire-test" ++ "," ++
  q "type" ++ ":" ++ q "fire_test" ++ "}".

(** The document of [plainEntry] without a type label. *)
Definition plainDocument : string :=
  "{" ++ q "@timestamp" ++ ":" ++ q "0001-01-01T00:00:00Z" ++ "," ++
  q "@version" ++ ":" ++ q "1" ++ "," ++
  q "level" ++ ":" ++ q "info" ++ "," ++
  q "message" ++ ":" ++ q "hi" ++ "}".

(** The same runtime with the maps visited in the opposite order. *)
Definition reversedRuntime : GoRuntime := {|
  time_Time := unit;
  Time_Format := fun _ _ => "0001-01-01T00:00:00Z";
  defaultTimestampFormat := RFC3339;
  json_Marshal := GoJSON.Marshal;
  map_range := fun m => reverse (map_to_list m);
  map_range_perm := fun m => reverse_Permutation (map_to_list m)
|}.

(** ** Lemmas about the program *)

Section Properties.
Context `{RT : GoRuntime}.

(** *** Strings *)

Lemma HasPrefix_app (prefix s : string) :
  strings.HasPrefix (prefix ++ s) prefix = true.
Proof.
  induction prefix as [|c prefix IH]; simpl; [by destruct s|].
  by rewrite Ascii.eqb_refl.
Qed.

(** [HasPrefix] holds exactly of the strings that begin with the prefix. *)
Lemma HasPrefix_spec (k prefix : string) :
  strings.HasPrefix k prefix = true ↔ ∃ s, k = prefix ++ s.
Proof.
  split; [|intros [s ->]; apply HasPrefix_app].
  revert k. induction prefix as [|c prefix IH]; intros k; simpl.
  - intros _. by exists k.
  - destruct k as [|c' k]; simpl; [done|].
    destruct (Ascii.eqb c c') eqn:Hc; [|done].
    apply Ascii.eqb_eq in Hc as ->. intros Hk.
    destruct (IH k Hk) as [s ->]. by exists s.
Qed.

Lemma TrimPrefix_app (prefix s : string) :
  strings.TrimPrefix (prefix ++ s) prefix = s.
Proof.
  unfold strings.TrimPrefix. rewrite HasPrefix_app.
  induction prefix as [|c prefix IH]; [by destruct s|exact IH].
Qed.

(** *** Maps and their iteration *)

Lemma eqb_empty_false (s : string) : s ≠ "" → String.eqb s "" = false.
Proof. intros Hs. by apply String.eqb_neq. Qed.

Lemma map_range_lookup (m : Fields) (k : string) (v : Value) :
  (k, v) ∈ map_range m ↔ m !! k = Some v.
Proof. rewrite map_range_perm. apply elem_of_map_to_list. Qed.

Lemma map_range_NoDup (m : Fields) : NoDup (map_range m).*1.
Proof. rewrite map_range_perm. apply NoDup_fst_map_to_list. Qed.

Lemma map_range_keys (m : Fields) (k : string) :
  k ∈ (map_range m).*1 ↔ is_Some (m !! k).
Proof.
  rewrite list_elem_of_fmap. split.
  - intros [[k' v] [-> Hin]]. apply map_range_lookup in Hin. by exists v.
  - intros [v Hv]. exists (k, v). split; [done|]. by apply map_range_lookup.
Qed.

Lemma list_to_map_range (m : Fields) : list_to_map (map_range m) = m.
Proof.
  rewrite <- (list_to_map_to_list m) at 2.
  apply list_to_map_proper; [apply map_range_NoDup | apply map_range_perm].
Qed.

(** The deleting loop removes exactly the visited keys that start with the
    prefix. *)
Lemma deletePrefixed_lookup (prefix : string) (keys : list string)
    (data : Fields) (k : string) :
  deletePrefixed prefix keys data !! k =
    if strings.HasPrefix k prefix && bool_decide (k ∈ keys)
    then None else data !! k.
Proof.
  revert data. induction keys as [|key keys IH]; intros data; simpl.
  - by rewrite andb_false_r.
  - rewrite IH. destruct (decide (k = key)) as [->|Hne].
    + rewrite (bool_decide_eq_true_2 (key ∈ key :: keys)) by apply list_elem_of_here.
      rewrite andb_true_r.
      destruct (strings.HasPrefix key prefix) eqn:Hp; simpl.
      * destruct (bool_decide _); [done|]. apply lookup_delete_eq.
      * done.
    + assert (bool_decide (k ∈ key :: keys) = bool_decide (k ∈ keys)) as ->.
      { apply bool_decide_ext. rewrite elem_of_cons. tauto. }
      destruct (strings.HasPrefix k prefix && bool_decide (k ∈ keys)); [done|].
      destruct (strings.HasPrefix key prefix); [|done].
      by rewrite lookup_delete_ne.
Qed.

(** After the deleting loop over all the keys of the map, the keys that
    start with the prefix are gone and the others are untouched. *)
Lemma deletePrefixed_range (prefix : string) (data : Fields) (k : string) :
  deletePrefixed prefix (map_range data).*1 data !! k =
    if strings.HasPrefix k prefix then None else data !! k.
Proof.
  rewrite deletePrefixed_lookup.
  destruct (strings.HasPrefix k prefix); [|done]. simpl.
  case_bool_decide as Hk; [done|].
  rewrite map_range_keys in Hk. apply eq_None_not_Some in Hk. by rewrite Hk.
Qed.

Lemma addAlwaysSent_union (l : list (string * Value)) (data : Fields) :
  NoDup l.*1 → addAlwaysSent l data = data ∪ list_to_map l.
Proof.
  revert data. induction l as [|[k v] l IH]; intros data Hnd; simpl.
  - by rewrite (right_id_L ∅ (∪)).
  - apply NoDup_cons in Hnd as [Hk Hnd]. rewrite IH by done.
    apply (not_elem_of_list_to_map_1 (M:=gmap string)) in Hk. simpl in Hk.
    apply map_eq. intros i. rewrite !lookup_union.
    destruct (data !! k) as [x|] eqn:Hd.
    + destruct (decide (i = k)) as [->|Hne].
      * rewrite Hd, Hk, lookup_insert_eq. done.
      * by rewrite lookup_insert_ne.
    + destruct (decide (i = k)) as [->|Hne].
      * rewrite Hd, Hk, !lookup_insert_eq. done.
      * by rewrite !lookup_insert_ne.
Qed.

(** The merge loop of [Fire] computes the union in which the record's own
    fields win. *)
Lemma addAlwaysSent_range (defaults data : Fields) :
  addAlwaysSent (map_range defaults) data = data ∪ defaults.
Proof.
  rewrite addAlwaysSent_union by apply map_range_NoDup.
  by rewrite list_to_map_range.
Qed.

(** *** The encoder *)

Lemma sentKey_no_prefix (k : string) : sentKey "" k = k.
Proof. reflexivity. Qed.

(** Writing into a [bytes.Buffer] cannot fail: the encoder's only error is
    the JSON encoder's, and on success the buffer has grown by the
    document and by two newline characters, the one [Encode] appends and the
    one [WriteWithPrefix] writes after it. *)
Lemma WriteWithPrefix_Buffer (w : LogstashWriter.t) (b : Buffer)
    (entry : Entry) (prefix : string) :
  WriteWithPrefix w b entry prefix =
    match json_Marshal (buildFields w entry prefix) with
    | inl doc => ((b ++ (doc ++ newline)) ++ newline, None)
    | inr err => (b, Some (marshalError err))
    end.
Proof.
  unfold WriteWithPrefix, Encode.
  destruct (json_Marshal (buildFields w entry prefix)); reflexivity.
Qed.

(** A writer that fails makes [WriteWithPrefix] fail, whatever the
    record. *)
Lemma WriteWithPrefix_Broken (w : LogstashWriter.t) (entry : Entry)
    (prefix : string) :
  (WriteWithPrefix w broken entry prefix).2 ≠ None.
Proof.
  unfold WriteWithPrefix, Encode.
  by destruct (json_Marshal (buildFields w entry prefix)).
Qed.

Lemma moveCollision_lookup_ne (data : Fields) (key moved k : string)
    (fields : Fields) :
  k ≠ moved → moveCollision data key moved fields !! k = fields !! k.
Proof.
  intros Hne. unfold moveCollision.
  destruct (data !! key); [|done]. by rewrite lookup_insert_ne.
Qed.


(** A key that [WriteWithPrefix] does not set itself holds what the copy
    loop stored under it. *)
Lemma buildFields_lookup_other (w : LogstashWriter.t) (entry : Entry)
    (prefix k : string) :
  k ∉ reservedKeys →
  buildFields w entry prefix !! k =
    copyFields prefix (map_range (Data entry)) ∅ !! k.
Proof.
  intros Hk. unfold reservedKeys in Hk.
  repeat (apply not_elem_of_cons in Hk as [? Hk]).
  unfold buildFields.
  destruct (negb _);
    repeat first [ rewrite lookup_insert_ne by congruence
                 | rewrite moveCollision_lookup_ne by congruence ];
    reflexivity.
Qed.








(** *** The copy loop *)

Lemma copyFields_snoc (prefix : string) (l : list (string * Value))
    (kv : string * Value) (fields : Fields) :
  copyFields prefix (l ++ [kv]) fields =
    <[sentKey prefix kv.1 := sentValue kv.2]> (copyFields prefix l fields).
Proof. unfold copyFields. by rewrite foldl_snoc. Qed.

(** Whatever the copy loop leaves under a key was there before or is the
    sent value of a record field sent under that key. *)
Lemma copyFields_lookup_inv (prefix : string) (l : list (string * Value))
    (fields : Fields) (j : string) (x : Value) :
  copyFields prefix l fields !! j = Some x →
  fields !! j = Some x ∨
  ∃ k v, (k, v) ∈ l ∧ sentKey prefix k = j ∧ sentValue v = x.
Proof.
  induction l as [|[k0 v0] l IH] using rev_ind; [by left|].
  rewrite copyFields_snoc. simpl.
  destruct (decide (sentKey prefix k0 = j)) as [<-|Hne].
  - rewrite lookup_insert_eq. intros [= <-]. right. exists k0, v0.
    split; [|done]. apply elem_of_app. right. apply list_elem_of_here.
  - rewrite lookup_insert_ne by done. intros Hx.
    destruct (IH Hx) as [?|(k & v & Hin & ? & ?)]; [by left|].
    right. exists k, v. split; [|done]. apply elem_of_app. by left.
Qed.

(** Every record field is sent: its key holds the sent value of some field
    sent under the same key. *)
Lemma copyFields_lookup_member (prefix : string) (l : list (string * Value))
    (fields : Fields) (k : string) (v : Value) :
  (k, v) ∈ l →
  ∃ k' v', (k', v') ∈ l ∧ sentKey prefix k' = sentKey prefix k ∧
           copyFields prefix l fields !! sentKey prefix k =
             Some (sentValue v').
Proof.
  induction l as [|[k0 v0] l IH] using rev_ind.
  - intros Hin. by apply elem_of_nil in Hin.
  - intros Hin. rewrite copyFields_snoc. simpl.
    destruct (decide (sentKey prefix k0 = sentKey prefix k)) as [Heq|Hne].
    + exists k0, v0. split; [apply elem_of_app; right; apply list_elem_of_here|].
      split; [done|]. rewrite <- Heq. apply lookup_insert_eq.
    + apply elem_of_app in Hin as [Hin|Hin].
      * destruct (IH Hin) as (k' & v' & Hin' & Hk' & Hv').
        exists k', v'. split; [apply elem_of_app; by left|].
        split; [done|]. by rewrite lookup_insert_ne.
      * apply list_elem_of_singleton in Hin as [= -> ->]. done.
Qed.


Lemma copyFields_range_inv (prefix : string) (data : Fields) (j : string)
    (x : Value) :
  copyFields prefix (map_range data) ∅ !! j = Some x →
  ∃ k v, data !! k = Some v ∧ sentKey prefix k = j ∧ sentValue v = x.
Proof.
  intros Hx. apply copyFields_lookup_inv in Hx as [Hx|(k & v & Hin & ? & ?)].
  - by rewrite lookup_empty in Hx.
  - exists k, v. split; [by apply map_range_lookup|done].
Qed.

(** *** The hook *)

Lemma filterHookOnly_lookup (h : Hook.t) (entry : Entry) (k : string) :
  Data (filterHookOnly h entry) !! k =
    if negb (String.eqb (Hook.hookOnlyPrefix h) "") &&
       strings.HasPrefix k (Hook.hookOnlyPrefix h)
    then None else Data entry !! k.
Proof.
  unfold filterHookOnly.
  destruct (negb (String.eqb (Hook.hookOnlyPrefix h) "")); simpl; [|done].
  apply deletePrefixed_range.
Qed.

Lemma Entry_eq (e1 e2 : Entry) :
  Data e1 = Data e2 → Time e1 = Time e2 → Level e1 = Level e2 →
  Message e1 = Message e2 → e1 = e2.
Proof. destruct e1, e2; simpl; congruence. Qed.

Lemma filterHookOnly_frame (h : Hook.t) (entry : Entry) :
  Time (filterHookOnly h entry) = Time entry ∧
  Level (filterHookOnly h entry) = Level entry ∧
  Message (filterHookOnly h entry) = Message entry.
Proof. unfold filterHookOnly. by destruct (negb _). Qed.

Lemma mergedEntry_Data (h : Hook.t) (entry : Entry) :
  Data (mergedEntry h entry) = Data entry ∪ Hook.alwaysSentFields h.
Proof. unfold mergedEntry. simpl. apply addAlwaysSent_range. Qed.

Lemma getFormatBuf_heap (w : World) :
  heap (getFormatBuf w).2 !! (getFormatBuf w).1 = Some "".
Proof.
  unfold getFormatBuf. destruct (formatBuff w); simpl; apply lookup_insert_eq.
Qed.

Lemma getFormatBuf_frame (w : World) :
  entryChan (getFormatBuf w).2 = entryChan w ∧
  formatBuff (getFormatBuf w).2 = tail (formatBuff w) ∧
  connPool (getFormatBuf w).2 = connPool w ∧
  trace (getFormatBuf w).2 = trace w.
Proof.
  unfold getFormatBuf.
  destruct (formatBuff w) as [|b idle] eqn:Hp; simpl; by rewrite ?Hp.
Qed.

(** [Fire] in shipping mode, by the outcome of the JSON encoder. *)
Lemma Fire_shipping (h : Hook.t) (entry : Entry) (w : World) :
  Hook.filtering h = false →
  Fire h entry w =
    let b := (getFormatBuf w).1 in
    let w1 := (getFormatBuf w).2 in
    match json_Marshal (encodedFields h entry) with
    | inl doc =>
        (filterHookOnly h (mergedEntry h entry),
         trySend (taskOf h b)
           (set_heap (<[b := (doc ++ newline) ++ newline]> (heap w1)) w1),
         None)
    | inr err =>
        (filterHookOnly h (mergedEntry h entry),
         set_heap (<[b := ""]> (heap w1)) w1,
         Some (marshalError err))
    end.
Proof.
  intros Hf. unfold Fire. rewrite Hf.
  pose proof (getFormatBuf_heap w) as Hb.
  destruct (getFormatBuf w) as [b w1]. simpl in *.
  rewrite Hb. simpl. rewrite WriteWithPrefix_Buffer.
  fold (mergedEntry h entry). fold (encodedFields h entry).
  destruct (json_Marshal (encodedFields h entry)); reflexivity.
Qed.

Lemma Fire_filtering (h : Hook.t) (entry : Entry) (w : World) :
  Hook.filtering h = true →
  Fire h entry w = (filterHookOnly h (mergedEntry h entry), w, None).
Proof. intros Hf. unfold Fire. by rewrite Hf. Qed.

(** On every path [Fire] leaves the caller with the merged record after
    the deferred prefix strip. *)
Lemma Fire_entry (h : Hook.t) (entry : Entry) (w : World) :
  (Fire h entry w).1.1 = filterHookOnly h (mergedEntry h entry).
Proof.
  destruct (Hook.filtering h) eqn:Hf.
  - by rewrite Fire_filtering.
  - rewrite Fire_shipping by done. simpl.
    by destruct (json_Marshal (encodedFields h entry)).
Qed.

(** The error [Fire] returns is the encoder's in shipping mode and nil in
    filter-only mode, whatever the state of the queue, the pools and the
    network. *)
Lemma Fire_error (h : Hook.t) (entry : Entry) (w : World) :
  (Fire h entry w).2 =
    if Hook.filtering h then None else encodeError h entry.
Proof.
  destruct (Hook.filtering h) eqn:Hf.
  - by rewrite Fire_filtering.
  - rewrite Fire_shipping by done. unfold encodeError. simpl.
    by destruct (json_Marshal (encodedFields h entry)).
Qed.

(** *** The sender *)

Lemma newEvents_app (w w' : World) (evs : list Event) :
  trace w' = (trace w ++ evs)%list → newEvents w w' = evs.
Proof. intros Ht. unfold newEvents. rewrite Ht. apply drop_app_length. Qed.

Lemma SenderOutcome_counts (net : Network) (d : sendMessage.t)
    (w w' : World) :
  SenderOutcome net d w w' →
  (countEvents isDial (newEvents w w') ≤ 1)%nat ∧
  (countEvents isWrite (newEvents w w') ≤
     1 + countEvents isDial (newEvents w w'))%nat ∧
  List.filter isPut (newEvents w w') = [EvPut (sendMessage.data d)].
Proof.
  intros [c n ? ? Ht ?|first err Hfirst ? Ht ?|first c n r Hfirst ? ? Ht ?];
    rewrite (newEvents_app _ _ _ Ht); unfold countEvents.
  - simpl. repeat split; lia.
  - destruct Hfirst; simpl; repeat split; lia.
  - destruct Hfirst, r; simpl; repeat split; lia.
Qed.

Lemma processEntry_frame (net : Network) (d : sendMessage.t) (w : World) :
  entryChan (processEntry net d w) = entryChan w ∧
  heap (processEntry net d w) = heap w ∧
  formatBuff (processEntry net d w) = sendMessage.data d :: formatBuff w.
Proof.
  unfold processEntry, sendDataAndRetry, dialAndWrite, connWrite, Dial.
  destruct (connPool w !! poolKey d) as [c|]; simpl.
  - destruct (Conn_Write net (trace w) c (Bytes d w)) as [n [e|]]; simpl.
    + destruct (net_Dial net _ _ _) as [c'|e']; simpl; [|done].
      by destruct (Conn_Write net _ c' _) as [n' [e'|]].
    + done.
  - destruct (net_Dial net _ _ _) as [c'|e']; simpl; [|done].
    by destruct (Conn_Write net _ c' _) as [n' [e'|]].
Qed.

Lemma processEntry_outcome (net : Network) (d : sendMessage.t) (w : World) :
  SenderOutcome net d w (processEntry net d w).
Proof.
  unfold processEntry, sendDataAndRetry, dialAndWrite, connWrite, Dial.
  destruct (connPool w !! poolKey d) as [c|] eqn:Hc; simpl.
  - destruct (Conn_Write net (trace w) c (Bytes d w)) as [n [e|]] eqn:Hw;
      simpl.
    + pose proof (pooled_write_failed net d w c n e Hc Hw) as Hfirst.
      destruct (net_Dial net (trace w ++ [EvWrite c (Bytes d w) (Some e)])%list
                  (sendMessage.protocol d) (sendMessage.address d))
        as [c'|e'] eqn:Hd; simpl.
      * destruct (Conn_Write net
                    ((trace w ++ [EvWrite c (Bytes d w) (Some e)]) ++
                     [EvDial (sendMessage.protocol d) (sendMessage.address d)
                        (inl c')])%list c' (Bytes d w)) as [n' r] eqn:Hw'.
        unfold Bytes in *. simpl in *. rewrite Hw'. simpl.
        eapply (dialed_and_wrote_once net d w _ _ c' n' r Hfirst Hd).
        -- by rewrite <- app_assoc in Hw'.
        -- destruct r; simpl; by rewrite <- !app_assoc.
        -- by destruct r.
      * eapply (dial_failed net d w _ _ e' Hfirst Hd).
        -- simpl. by rewrite <- !app_assoc.
        -- done.
    + by eapply (pooled_write_succeeded net d w _ c n Hc Hw);
        simpl; rewrite <- ?app_assoc.
  - pose proof (no_pooled_connection net d w Hc) as Hfirst.
    destruct (net_Dial net (trace w) (sendMessage.protocol d)
                (sendMessage.address d)) as [c'|e'] eqn:Hd; simpl.
    + destruct (Conn_Write net
                  (trace w ++
                   [EvDial (sendMessage.protocol d) (sendMessage.address d)
                      (inl c')])%list c' (Bytes d w)) as [n' r] eqn:Hw'.
      unfold Bytes in *. simpl in *. rewrite Hw'. simpl.
      eapply (dialed_and_wrote_once net d w _ [] c' n' r Hfirst).
      * by rewrite app_nil_r.
      * done.
      * destruct r; simpl; by rewrite <- !app_assoc.
      * by destruct r.
    + eapply (dial_failed net d w _ [] e' Hfirst).
      * by rewrite app_nil_r.
      * simpl. by rewrite <- !app_assoc.
      * done.
Qed.

(** *** Buffers *)

Lemma trySend_frame (m : sendMessage.t) (w : World) :
  formatBuff (trySend m w) = formatBuff w ∧
  heap (trySend m w) = heap w ∧
  trace (trySend m w) = trace w ∧
  connPool (trySend m w) = connPool w.
Proof. unfold trySend. by destruct (decide _). Qed.

Lemma trySend_entryChan (m : sendMessage.t) (w : World) :
  entryChan (trySend m w) =
    if decide (length (entryChan w) < entryChan_cap)%nat
    then (entryChan w ++ [m])%list else entryChan w.
Proof. unfold trySend. by destruct (decide _). Qed.

(** A send keeps the queue within its capacity. *)
Lemma trySend_cap (m : sendMessage.t) (w : World) :
  (length (entryChan w) ≤ entryChan_cap)%nat →
  (length (entryChan (trySend m w)) ≤ entryChan_cap)%nat.
Proof.
  intros Hle. rewrite trySend_entryChan.
  destruct (decide _); [|done]. rewrite length_app. simpl. lia.
Qed.

(** The queue never holds more than its capacity. *)
Lemma entryChan_cap_step (net : Network) (w w' : World) :
  step net w w' →
  (length (entryChan w) ≤ entryChan_cap)%nat →
  (length (entryChan w') ≤ entryChan_cap)%nat.
Proof.
  intros [h entry|w'' Hs] Hle.
  - unfold Fire. destruct (Hook.filtering h); [done|].
    pose proof (getFormatBuf_frame w) as (Hq & _).
    destruct (getFormatBuf w) as [b w1]. simpl in Hq.
    destruct (WriteWithPrefix _ _ _ _) as [contents [err|]]; simpl.
    + by rewrite Hq.
    + apply trySend_cap. simpl. by rewrite Hq.
  - unfold senderStep in Hs. destruct (entryChan w) as [|d q] eqn:Hq; [done|].
    injection Hs as <-.
    destruct (processEntry_frame net d (set_entryChan q w)) as (-> & _).
    simpl in *. lia.
Qed.

(** [Fire] makes no network event and puts nothing into the pool: in
    shipping mode the pool loses the buffer it lent. *)
Lemma Fire_frame (h : Hook.t) (entry : Entry) (w : World) :
  trace (Fire h entry w).1.2 = trace w ∧
  connPool (Fire h entry w).1.2 = connPool w ∧
  formatBuff (Fire h entry w).1.2 =
    if Hook.filtering h then formatBuff w else tail (formatBuff w).
Proof.
  destruct (Hook.filtering h) eqn:Hf.
  - by rewrite Fire_filtering.
  - rewrite Fire_shipping by done. simpl.
    pose proof (getFormatBuf_frame w) as (_ & Hp & Hc & Ht).
    destruct (json_Marshal (encodedFields h entry)); simpl; [|done].
    by destruct (trySend_frame (taskOf h (getFormatBuf w).1)
      (set_heap (<[(getFormatBuf w).1 := (s ++ newline) ++ newline]>
         (heap (getFormatBuf w).2)) (getFormatBuf w).2)) as (-> & _ & -> & ->).
Qed.

(** What [Fire] does to the queue in shipping mode. *)
Lemma Fire_entryChan (h : Hook.t) (entry : Entry) (w : World) :
  Hook.filtering h = false →
  entryChan (Fire h entry w).1.2 =
    match encodeError h entry with
    | Some _ => entryChan w
    | None =>
        if decide (length (entryChan w) < entryChan_cap)%nat
        then (entryChan w ++ [taskOf h (getFormatBuf w).1])%list
        else entryChan w
    end.
Proof.
  intros Hf. rewrite Fire_shipping by done. unfold encodeError. simpl.
  pose proof (getFormatBuf_frame w) as (Hq & _).
  destruct (json_Marshal (encodedFields h entry)); simpl; [|done].
  rewrite trySend_entryChan. simpl. by rewrite Hq.
Qed.

Lemma Fire_heap_dom (h : Hook.t) (entry : Entry) (w : World) :
  dom (heap (Fire h entry w).1.2) =
    if Hook.filtering h then dom (heap w)
    else {[ (getFormatBuf w).1 ]} ∪ dom (heap w).
Proof.
  destruct (Hook.filtering h) eqn:Hf.
  - by rewrite Fire_filtering.
  - rewrite Fire_shipping by done. simpl.
    assert (dom (heap (getFormatBuf w).2) =
            {[ (getFormatBuf w).1 ]} ∪ dom (heap w)) as Hd.
    { unfold getFormatBuf. destruct (formatBuff w); simpl;
        by rewrite dom_insert_L. }
    destruct (json_Marshal (encodedFields h entry)); simpl.
    + destruct (trySend_frame (taskOf h (getFormatBuf w).1)
        (set_heap (<[(getFormatBuf w).1 := (s ++ newline) ++ newline]>
           (heap (getFormatBuf w).2)) (getFormatBuf w).2)) as (_ & -> & _).
      simpl. rewrite dom_insert_L, Hd.
      by rewrite (assoc_L (∪)), (idemp_L (∪)).
    + rewrite dom_insert_L, Hd. by rewrite (assoc_L (∪)), (idemp_L (∪)).
Qed.

(** The buffer [Fire] borrows is the first idle one, or else a new one. *)
Lemma getFormatBuf_borrowed (w : World) :
  match formatBuff w with
  | b :: _ => (getFormatBuf w).1 = b
  | [] => (getFormatBuf w).1 ∉ dom (heap w)
  end.
Proof.
  unfold getFormatBuf. destruct (formatBuff w); simpl; [|done].
  apply is_fresh.
Qed.

Lemma ownedBuffers_elem (w : World) (b : BufPtr) :
  b ∈ ownedBuffers w ↔
  b ∈ formatBuff w ∨ ∃ d, d ∈ entryChan w ∧ sendMessage.data d = b.
Proof.
  unfold ownedBuffers. rewrite elem_of_app, list_elem_of_fmap.
  split; (intros [?|[d [? ?]]]; [by left|right; by exists d]).
Qed.

Lemma BuffersOwned_forall (w : World) :
  BuffersOwned w ↔
  NoDup (ownedBuffers w) ∧ ∀ b, b ∈ ownedBuffers w → b ∈ dom (heap w).
Proof. unfold BuffersOwned. by rewrite Forall_forall. Qed.

(** The borrowed buffer is not among the buffers that stay idle or
    queued. *)
Lemma getFormatBuf_not_owned (w : World) :
  BuffersOwned w →
  (getFormatBuf w).1 ∉
    (tail (formatBuff w) ++ (sendMessage.data <$> entryChan w))%list.
Proof.
  intros Hw. apply BuffersOwned_forall in Hw as [Hnd Hdom].
  pose proof (getFormatBuf_borrowed w) as Hb.
  unfold ownedBuffers in *.
  destruct (formatBuff w) as [|b idle]; simpl in *.
  - intros Hin. by apply Hb, Hdom.
  - rewrite Hb. by apply NoDup_cons in Hnd as [? _].
Qed.

Lemma BuffersOwned_Fire (h : Hook.t) (entry : Entry) (w : World) :
  BuffersOwned w → BuffersOwned (Fire h entry w).1.2.
Proof.
  intros Hw. destruct (Hook.filtering h) eqn:Hf.
  { by rewrite Fire_filtering. }
  pose proof (getFormatBuf_not_owned w Hw) as Hb.
  apply BuffersOwned_forall in Hw as [Hnd Hdom].
  pose proof (Fire_frame h entry w) as (_ & _ & Hp).
  pose proof (Fire_entryChan h entry w Hf) as Hq.
  pose proof (Fire_heap_dom h entry w) as Hd.
  rewrite Hf in Hp, Hd.
  assert (NoDup (tail (formatBuff w) ++
                 (sendMessage.data <$> entryChan w))%list) as Hnd'.
  { unfold ownedBuffers in Hnd. destruct (formatBuff w); [done|].
    simpl in *. by apply NoDup_cons in Hnd as [_ ?]. }
  assert (∀ b, b ∈ (tail (formatBuff w) ++
                     (sendMessage.data <$> entryChan w))%list
               → b ∈ dom (heap w)) as Hdom'.
  { intros b Hin. apply Hdom. unfold ownedBuffers.
    destruct (formatBuff w); [done|]. simpl in *. by right. }
  apply BuffersOwned_forall. unfold ownedBuffers. rewrite Hp, Hq, Hd.
  destruct (encodeError h entry); [|destruct (decide _)].
  - split; [done|]. intros b Hin. apply elem_of_union. right. by apply Hdom'.
  - rewrite fmap_app, app_assoc. simpl. split.
    + apply NoDup_app. split; [done|]. split; [|apply NoDup_singleton].
      intros b Hin ->%list_elem_of_singleton. done.
    + intros b [Hin| ->%list_elem_of_singleton]%elem_of_app.
      * apply elem_of_union. right. by apply Hdom'.
      * apply elem_of_union. left. by apply elem_of_singleton.
  - split; [done|]. intros b Hin. apply elem_of_union. right. by apply Hdom'.
Qed.

Lemma BuffersOwned_sender (net : Network) (w w' : World) :
  senderStep net w = Some w' → BuffersOwned w → BuffersOwned w'.
Proof.
  unfold senderStep. destruct (entryChan w) as [|d q] eqn:Hq; [done|].
  intros [= <-] Hw. apply BuffersOwned_forall in Hw as [Hnd Hdom].
  pose proof (processEntry_frame net d (set_entryChan q w)) as (Hq' & Hh & Hp).
  apply BuffersOwned_forall.
  unfold ownedBuffers in *. rewrite Hq', Hh, Hp, Hq in *.
  simpl in *. split.
  - eapply NoDup_Permutation_proper; [|exact Hnd].
    apply Permutation_middle.
  - intros b Hin. apply Hdom.
    apply elem_of_cons in Hin as [->|Hin].
    + apply elem_of_app. right. apply list_elem_of_here.
    + apply elem_of_app in Hin as [Hin|Hin]; apply elem_of_app;
        [by left|right; by apply list_elem_of_further].
Qed.

(** The buffer discipline holds of every state the system reaches. *)
Lemma BuffersOwned_step (net : Network) (w w' : World) :
  step net w w' → BuffersOwned w → BuffersOwned w'.
Proof.
  intros [h entry|w'' Hs].
  - apply BuffersOwned_Fire.
  - by apply (BuffersOwned_sender net).
Qed.

Lemma BuffersOwned_init : BuffersOwned (mkWorld [] [] ∅ ∅ []).
Proof. split; constructor. Qed.

Lemma processEntry_puts (net : Network) (d : sendMessage.t) (w : World) :
  ∃ evs, trace (processEntry net d w) = (trace w ++ evs)%list ∧
         ∀ b, EvPut b ∈ evs → b = sendMessage.data d.
Proof.
  destruct (processEntry_outcome net d w)
    as [c n _ _ Ht _|first err Hfirst _ Ht _|first c n r Hfirst _ _ Ht _];
    eexists; (split; [exact Ht|]); intros b Hin.
  - apply elem_of_cons in Hin as [[=]|Hin].
    by apply list_elem_of_singleton in Hin as [= ->].
  - apply elem_of_app in Hin as [Hin|Hin].
    + destruct Hfirst; [by apply elem_of_nil in Hin|].
      by apply list_elem_of_singleton in Hin.
    + apply elem_of_cons in Hin as [[=]|Hin].
      apply elem_of_cons in Hin as [[= ->]|Hin]; [done|].
      by apply list_elem_of_singleton in Hin.
  - apply elem_of_app in Hin as [Hin|Hin].
    + destruct Hfirst; [by apply elem_of_nil in Hin|].
      by apply list_elem_of_singleton in Hin.
    + apply elem_of_cons in Hin as [[=]|Hin].
      apply elem_of_cons in Hin as [[=]|Hin].
      apply elem_of_cons in Hin as [[= ->]|Hin]; [done|].
      destruct r; [by apply list_elem_of_singleton in Hin|].
      by apply elem_of_nil in Hin.
Qed.

Lemma Lost_Fire (b : BufPtr) (h : Hook.t) (entry : Entry) (w : World) :
  Lost b w → Lost b (Fire h entry w).1.2.
Proof.
  intros [Hdom Hown]. destruct (Hook.filtering h) eqn:Hf.
  { by rewrite Fire_filtering. }
  pose proof (Fire_frame h entry w) as (_ & _ & Hp).
  pose proof (Fire_entryChan h entry w Hf) as Hq.
  pose proof (Fire_heap_dom h entry w) as Hd.
  pose proof (getFormatBuf_borrowed w) as Hb.
  rewrite Hf in Hp, Hd.
  assert ((getFormatBuf w).1 ≠ b) as Hne.
  { intros <-. destruct (formatBuff w) as [|b' idle] eqn:Hpool; [done|].
    apply Hown, ownedBuffers_elem. left. rewrite Hpool, Hb.
    apply list_elem_of_here. }
  split.
  - rewrite Hd. apply elem_of_union. by right.
  - rewrite ownedBuffers_elem, Hp, Hq. intros [Hin|(d & Hin & Hdata)].
    + apply Hown, ownedBuffers_elem. left.
      destruct (formatBuff w); [done|]. by apply list_elem_of_further.
    + destruct (encodeError h entry); [|destruct (decide _)].
      * apply Hown, ownedBuffers_elem. right. by exists d.
      * apply elem_of_app in Hin as [Hin|Hin].
        -- apply Hown, ownedBuffers_elem. right. by exists d.
        -- apply list_elem_of_singleton in Hin as ->. by simpl in Hdata.
      * apply Hown, ownedBuffers_elem. right. by exists d.
Qed.

Lemma Lost_sender (b : BufPtr) (net : Network) (w w' : World) :
  senderStep net w = Some w' → Lost b w → Lost b w' ∧ NoPutSince b w w'.
Proof.
  unfold senderStep. destruct (entryChan w) as [|d q] eqn:Hq; [done|].
  intros [= <-] [Hdom Hown].
  pose proof (processEntry_frame net d (set_entryChan q w)) as (Hq' & Hh & Hp).
  assert (sendMessage.data d ≠ b) as Hne.
  { intros <-. apply Hown, ownedBuffers_elem. right. exists d.
    split; [|done]. rewrite Hq. apply list_elem_of_here. }
  split; [split|].
  - by rewrite Hh.
  - rewrite ownedBuffers_elem, Hq', Hp. intros [Hin|(d' & Hin & Hdata)].
    + apply elem_of_cons in Hin as [?|Hin]; [done|].
      apply Hown, ownedBuffers_elem. by left.
    + apply Hown, ownedBuffers_elem. right. exists d'.
      split; [|done]. rewrite Hq. by apply list_elem_of_further.
  - destruct (processEntry_puts net d (set_entryChan q w))
      as (evs & Ht & Hputs).
    exists evs. split; [exact Ht|]. intros Hin. by apply Hputs in Hin.
Qed.

(** A lost buffer stays lost, and is never put back, whatever the
    producers and the sender do next. *)
Lemma Lost_forever (b : BufPtr) (net : Network) (w w' : World) :
  rtc (step net) w w' → Lost b w → Lost b w' ∧ NoPutSince b w w'.
Proof.
  induction 1 as [w|w w1 w2 Hstep _ IH]; intros Hlost.
  - split; [done|]. exists []. split; [by rewrite app_nil_r|].
    apply not_elem_of_nil.
  - assert (Lost b w1 ∧ NoPutSince b w w1) as [Hlost1 (evs1 & Ht1 & Hn1)].
    { destruct Hstep as [h entry|w1 Hs].
      - split; [by apply Lost_Fire|]. exists [].
        split; [|apply not_elem_of_nil].
        rewrite app_nil_r. apply Fire_frame.
      - by apply (Lost_sender b net). }
    destruct (IH Hlost1) as [Hlost2 (evs2 & Ht2 & Hn2)].
    split; [done|]. exists (evs1 ++ evs2)%list. split.
    + by rewrite Ht2, Ht1, app_assoc.
    + intros Hin. apply elem_of_app in Hin as [?|?]; done.
Qed.

(** ** The properties of the specification *)


(** C3.  For the task the sender has received: a pooled connection gets one
    write and its success ends the task; without a pooled connection, or
    when that write fails, the endpoint is dialed once; a failed dial
    abandons the task and reports the error; after a successful dial the new
    connection replaces the pooled one and one more write is made, whose
    outcome is final; and in every outcome the buffer goes back to the
    pool, once. *)
Theorem processEntry_policy (net : Network) (d : sendMessage.t) (w : World) :
  let w' := processEntry net d w in
  SenderOutcome net d w w' ∧
  formatBuff w' = sendMessage.data d :: formatBuff w ∧
  (countEvents isDial (newEvents w w') ≤ 1)%nat ∧
  (countEvents isWrite (newEvents w w') ≤
     1 + countEvents isDial (newEvents w w'))%nat ∧
  List.filter isPut (newEvents w w') = [EvPut (sendMessage.data d)].
Proof.
  simpl. split; [apply processEntry_outcome|].
  split; [apply processEntry_frame|].
  apply (SenderOutcome_counts net d), processEntry_outcome.
Qed.

(** C4.  The queue has 1000 places and sending to it does not wait.  A
    shipping-mode [Fire] made while the queue holds 1000 tasks leaves the
    queue as it was, the new task being dropped, and the full queue adds no
    error of its own: the call returns what the encoder returned, nil for
    every record that was encoded. *)
Theorem Fire_full_queue (h : Hook.t) (entry : Entry) (w : World) :
  Hook.filtering h = false →
  length (entryChan w) = 1000%nat →
  entryChan_cap = 1000%nat ∧
  entryChan (Fire h entry w).1.2 = entryChan w ∧
  trace (Fire h entry w).1.2 = trace w ∧
  (Fire h entry w).2 = encodeError h entry ∧
  (encodeError h entry = None → (Fire h entry w).2 = None).
Proof.
  intros Hf Hlen. split; [done|].
  rewrite Fire_error, Hf. split; [|split; [apply Fire_frame|done]].
  rewrite Fire_entryChan by done.
  destruct (encodeError h entry); [done|].
  rewrite decide_False by (unfold entryChan_cap; lia). done.
Qed.

(** C5.  In shipping mode [Fire] returns an error exactly when the JSON
    encoder refuses the record, and nothing is enqueued then; in
    filter-only mode it returns nil; and the error never depends on the
    state of the queue, the pools, the connections or what the sender did. *)
Theorem Fire_error_contract (h : Hook.t) (entry : Entry) (w : World) :
  (if Hook.filtering h
   then (Fire h entry w).2 = None
   else ((Fire h entry w).2 ≠ None ↔
           ∃ err, json_Marshal (encodedFields h entry) = inr err) ∧
        ((Fire h entry w).2 ≠ None →
           entryChan (Fire h entry w).1.2 = entryChan w)) ∧
  (∀ (net : Network) (n : nat) (w' : World),
     (Fire h entry (runSender net n w')).2 = (Fire h entry w).2).
Proof.
  split.
  - destruct (Hook.filtering h) eqn:Hf.
    + by rewrite Fire_error, Hf.
    + rewrite Fire_error, Hf. unfold encodeError. split.
      * destruct (json_Marshal (encodedFields h entry)) as [doc|err].
        -- split; [done|]. by intros [err [=]].
        -- split; [by exists err|done].
      * intros Herr. rewrite Fire_shipping by done. simpl.
        destruct (json_Marshal (encodedFields h entry)); [done|].
        simpl. apply getFormatBuf_frame.
  - intros net n w'. by rewrite !Fire_error.
Qed.

(** C6.  With a non-empty prefix, after [Fire] the caller's record has no
    field whose name starts with the prefix, in either mode and whether or
    not the record was encoded and enqueued. *)
Theorem Fire_strips_prefix (h : Hook.t) (entry : Entry) (w : World)
    (k : string) :
  Hook.hookOnlyPrefix h ≠ "" →
  strings.HasPrefix k (Hook.hookOnlyPrefix h) = true →
  Data (Fire h entry w).1.1 !! k = None.
Proof.
  intros Hp Hk. rewrite Fire_entry, filterHookOnly_lookup.
  by rewrite (eqb_empty_false _ Hp), Hk.
Qed.


(** C8.  In filter-only mode [Fire] merges the defaults and strips the
    prefix and does nothing else: the queue, the buffer pool, the buffers,
    the connection pool and the trace of network events are as before, for
    every record. *)
Theorem Fire_filter_only (h : Hook.t) (entry : Entry) (w : World) :
  Hook.filtering h = true →
  (Fire h entry w).1.2 = w ∧
  (Fire h entry w).2 = None ∧
  (∀ k, Data (Fire h entry w).1.1 !! k =
          if negb (String.eqb (Hook.hookOnlyPrefix h) "") &&
             strings.HasPrefix k (Hook.hookOnlyPrefix h)
          then None
          else (Data entry ∪ Hook.alwaysSentFields h) !! k).
Proof.
  intros Hf. rewrite Fire_filtering by done. simpl.
  split; [done|]. split; [done|].
  intros k. by rewrite filterHookOnly_lookup, mergedEntry_Data.
Qed.

(** C9.  Stripping the prefix twice is stripping it once, for every record
    and every prefix. *)
Theorem filterHookOnly_idempotent (h : Hook.t) (entry : Entry) :
  filterHookOnly h (filterHookOnly h entry) = filterHookOnly h entry.
Proof.
  pose proof (filterHookOnly_frame h (filterHookOnly h entry)) as (? & ? & ?).
  apply Entry_eq; try done.
  apply map_eq. intros k. rewrite !filterHookOnly_lookup.
  by destruct (_ && _).
Qed.

(** C10.  In shipping mode, when the encoder fails or the queue is full,
    the buffer [Fire] borrowed is left neither in the pool nor in the queue,
    and no later step of the system, a [Fire] or a turn of the sender, puts
    it back: [Fire] itself never puts a buffer into the pool, and the sender
    only puts back the buffer of the task it has just received. *)
Theorem dropped_buffer_never_returned (net : Network) (h : Hook.t)
    (entry : Entry) (w : World) :
  Hook.filtering h = false →
  BuffersOwned w →
  encodeError h entry ≠ None ∨ (entryChan_cap ≤ length (entryChan w))%nat →
  let b := (getFormatBuf w).1 in
  let w' := (Fire h entry w).1.2 in
  formatBuff w' = tail (formatBuff w) ∧
  entryChan w' = entryChan w ∧
  trace w' = trace w ∧
  Lost b w' ∧
  (∀ w'', rtc (step net) w' w'' →
     (b ∉ formatBuff w'') ∧ (EvPut b ∉ newEvents w w'')) ∧
  (∀ d w0, List.filter isPut (newEvents w0 (processEntry net d w0)) =
             [EvPut (sendMessage.data d)]).
Proof.
  intros Hf Hw Hcase b w'.
  pose proof (Fire_frame h entry w) as (Ht & _ & Hp).
  pose proof (Fire_entryChan h entry w Hf) as Hq.
  pose proof (Fire_heap_dom h entry w) as Hd.
  rewrite Hf in Hp, Hd. fold w' in Ht, Hp, Hq, Hd.
  assert (entryChan w' = entryChan w) as Hq'.
  { rewrite Hq. destruct Hcase as [Henc|Hfull].
    - by destruct (encodeError h entry).
    - destruct (encodeError h entry); [done|].
      by rewrite decide_False by lia. }
  assert (Lost b w') as Hlost.
  { split.
    - rewrite Hd. apply elem_of_union. left. by apply elem_of_singleton.
    - unfold ownedBuffers. rewrite Hp, Hq'.
      by apply getFormatBuf_not_owned. }
  split; [done|]. split; [done|]. split; [done|]. split; [done|]. split.
  - intros w'' Hsteps.
    destruct (Lost_forever b net w' w'' Hsteps Hlost)
      as [[_ Hown] (evs & Hevs & Hput)].
    split.
    + intros Hin. apply Hown, ownedBuffers_elem. by left.
    + rewrite Ht in Hevs. by rewrite (newEvents_app _ _ _ Hevs).
  - intros d w0. apply (SenderOutcome_counts net d), processEntry_outcome.
Qed.

(** ** Further properties of the program *)

(** *** The mutators and the constructors *)

Lemma insertAll_union (l : list (string * Value)) (m : Fields) :
  NoDup l.*1 →
  foldl (fun m kv => <[kv.1 := kv.2]> m) m l = list_to_map l ∪ m.
Proof.
  revert m. induction l as [|[k v] l IH]; intros m Hnd; simpl.
  - by rewrite (left_id_L ∅ (∪)).
  - apply NoDup_cons in Hnd as [Hk Hnd]. rewrite IH by done.
    apply (not_elem_of_list_to_map_1 (M:=gmap string)) in Hk. simpl in Hk.
    apply map_eq. intros i. rewrite !lookup_union.
    destruct (decide (i = k)) as [->|Hne].
    + rewrite Hk, !lookup_insert_eq. simpl.
      by destruct (m !! k).
    + by rewrite !lookup_insert_ne.
Qed.

(** X1.  [WithFields] merges the given fields into the defaults key by
    key, the given value replacing a default of the same key, in whatever
    order the loop visits them; the rest of the hook is unchanged. *)
Theorem WithFields_union (h : Hook.t) (fields : Fields) :
  Hook.alwaysSentFields (WithFields h fields) =
    fields ∪ Hook.alwaysSentFields h ∧
  (∀ k, Hook.alwaysSentFields (WithFields h fields) !! k =
          match fields !! k with
          | Some v => Some v
          | None => Hook.alwaysSentFields h !! k
          end) ∧
  Hook.protocol (WithFields h fields) = Hook.protocol h ∧
  Hook.address (WithFields h fields) = Hook.address h ∧
  Hook.filtering (WithFields h fields) = Hook.filtering h ∧
  Hook.appName (WithFields h fields) = Hook.appName h ∧
  Hook.hookOnlyPrefix (WithFields h fields) = Hook.hookOnlyPrefix h.
Proof.
  assert (Hook.alwaysSentFields (WithFields h fields) =
          fields ∪ Hook.alwaysSentFields h) as Hu.
  { unfold WithFields. simpl.
    rewrite insertAll_union by apply map_range_NoDup.
    by rewrite list_to_map_range. }
  split; [done|]. split; [|done].
  intros k. rewrite Hu, lookup_union.
  by destruct (fields !! k), (Hook.alwaysSentFields h !! k).
Qed.

(** X2.  [WithField] is [WithFields] of the one-field mapping, setting the
    same default twice keeps the later value, and [WithFields] of the empty
    mapping changes nothing. *)
Theorem WithField_WithFields (h : Hook.t) (key : string) (v v' : Value) :
  WithFields h {[key := v]} = WithField h key v ∧
  WithField (WithField h key v') key v = WithField h key v ∧
  WithFields h ∅ = h.
Proof.
  assert (∀ h1 h2 : Hook.t,
            Hook.protocol h1 = Hook.protocol h2 →
            Hook.address h1 = Hook.address h2 →
            Hook.filtering h1 = Hook.filtering h2 →
            Hook.appName h1 = Hook.appName h2 →
            Hook.alwaysSentFields h1 = Hook.alwaysSentFields h2 →
            Hook.hookOnlyPrefix h1 = Hook.hookOnlyPrefix h2 → h1 = h2) as Heq.
  { intros [] []; simpl; congruence. }
  split; [|split].
  - apply Heq; try done. unfold WithFields, WithField. simpl.
    rewrite insertAll_union by apply map_range_NoDup.
    rewrite list_to_map_range. apply map_eq. intros i.
    rewrite lookup_union. destruct (decide (i = key)) as [->|Hne].
    + rewrite lookup_singleton_eq, lookup_insert_eq.
      by destruct (Hook.alwaysSentFields h !! key).
    + rewrite lookup_singleton_ne, lookup_insert_ne by done.
      by destruct (Hook.alwaysSentFields h !! i).
  - apply Heq; try done. unfold WithField. simpl. apply insert_insert_eq.
  - apply Heq; try done. unfold WithFields. simpl.
    rewrite insertAll_union by apply map_range_NoDup.
    rewrite list_to_map_range. apply (left_id_L ∅ (∪)).
Qed.

(** X3.  A hook made by [NewHook] has no default field and no prefix:
    [Fire] leaves the caller's record as it was.  A hook made by
    [NewFilterHook] does nothing at all. *)
Theorem NewHook_Fire_record (protocol address appName : string)
    (entry : Entry) (w : World) :
  (Fire (NewHook protocol address appName) entry w).1.1 = entry ∧
  Fire NewFilterHook entry w = (entry, w, None).
Proof.
  assert (∀ h, Hook.alwaysSentFields h = ∅ → Hook.hookOnlyPrefix h = "" →
               filterHookOnly h (mergedEntry h entry) = entry) as Hid.
  { intros h Hd Hp. unfold filterHookOnly. rewrite Hp. simpl.
    apply Entry_eq; try done.
    rewrite mergedEntry_Data, Hd. apply (right_id_L ∅ (∪)). }
  split.
  - rewrite Fire_entry. by apply Hid.
  - rewrite Fire_filtering by done. by rewrite Hid.
Qed.

(** *** The encoder *)

Lemma copyFields_no_prefix (l : list (string * Value)) (fields : Fields) :
  NoDup l.*1 →
  copyFields "" l fields = (sentValue <$> list_to_map l) ∪ fields.
Proof.
  revert fields. induction l as [|[k v] l IH]; intros fields Hnd; simpl.
  - by rewrite fmap_empty, (left_id_L ∅ (∪)).
  - apply NoDup_cons in Hnd as [Hk Hnd].
    change (copyFields "" l (<[k := sentValue v]> fields) =
            (sentValue <$> <[k := v]> (list_to_map l)) ∪ fields).
    rewrite IH by done.
    apply (not_elem_of_list_to_map_1 (M:=gmap string)) in Hk. simpl in Hk.
    apply map_eq. intros i. rewrite !lookup_union, !lookup_fmap.
    destruct (decide (i = k)) as [->|Hne].
    + rewrite Hk, !lookup_insert_eq. simpl. by destruct (fields !! k).
    + by rewrite !lookup_insert_ne.
Qed.

(** X4.  [Write], the encoder without a prefix, sends every record field
    under its own name: a key the encoder does not set itself holds the
    record's value for it, an [error] as its text, and is absent when the
    record has no such field. *)
Theorem Write_fields (w : LogstashWriter.t) (entry : Entry) (k : string) :
  k ∉ reservedKeys →
  buildFields w entry "" !! k = sentValue <$> Data entry !! k.
Proof.
  intros Hk. rewrite buildFields_lookup_other by done.
  rewrite copyFields_no_prefix by apply map_range_NoDup.
  rewrite list_to_map_range, (right_id_L ∅ (∪)). apply lookup_fmap.
Qed.

(** X5.  Under the keys the encoder does not set itself the document never
    holds an [error] value: the copy loop has replaced each by its text. *)
Theorem copied_values_not_errors (w : LogstashWriter.t) (entry : Entry)
    (prefix j : string) (x : Value) :
  j ∉ reservedKeys →
  buildFields w entry prefix !! j = Some x →
  ∀ msg, x ≠ VErr msg.
Proof.
  intros Hj Hx msg ->. rewrite buildFields_lookup_other in Hx by done.
  apply copyFields_range_inv in Hx as (k & v & _ & _ & Hv).
  by destruct v.
Qed.

(** X6.  The document always carries [@version] = ["1"] and [@timestamp],
    the record's time in the writer's format, or in the default format
    when the writer has none; a record field of either name is overwritten.
    [Fire] builds its writer without a format, so the hook always sends the
    default format. *)
Theorem version_and_timestamp (w : LogstashWriter.t) (h : Hook.t)
    (entry : Entry) (prefix : string) :
  buildFields w entry prefix !! "@version" = Some (VStr "1") ∧
  buildFields w entry prefix !! "@timestamp" =
    Some (VStr (Time_Format (Time entry)
                  (if String.eqb (LogstashWriter.TimestampFormat w) ""
                   then defaultTimestampFormat
                   else LogstashWriter.TimestampFormat w))) ∧
  encodedFields h entry !! "@timestamp" =
    Some (VStr (Time_Format (Time entry) defaultTimestampFormat)).
Proof.
  assert (∀ w' e p, buildFields w' e p !! "@timestamp" =
            Some (VStr (Time_Format (Time e)
                          (if String.eqb (LogstashWriter.TimestampFormat w') ""
                           then defaultTimestampFormat
                           else LogstashWriter.TimestampFormat w')))) as Hts.
  { intros w' e p. unfold buildFields.
    destruct (negb _);
      repeat first [ rewrite lookup_insert_eq; reflexivity
                   | rewrite lookup_insert_ne by discriminate
                   | rewrite moveCollision_lookup_ne by discriminate ]. }
  split; [|split; [apply Hts|]].
  - unfold buildFields.
    destruct (negb _);
      repeat first [ rewrite lookup_insert_eq; reflexivity
                   | rewrite lookup_insert_ne by discriminate
                   | rewrite moveCollision_lookup_ne by discriminate ].
  - unfold encodedFields. rewrite Hts. simpl.
    by destruct (filterHookOnly_frame h (mergedEntry h entry)).
Qed.

Lemma moveCollision_is_Some (data : Fields) (key moved j : string)
    (fields : Fields) :
  is_Some (fields !! j) → is_Some (moveCollision data key moved fields !! j).
Proof.
  intros Hj. unfold moveCollision. destruct (data !! key); [|done].
  destruct (decide (moved = j)) as [->|Hne].
  - rewrite lookup_insert_eq. by eexists.
  - by rewrite lookup_insert_ne.
Qed.

Lemma insert_is_Some (fields : Fields) (i j : string) (x : Value) :
  is_Some (fields !! j) → is_Some (<[i := x]> fields !! j).
Proof.
  intros Hj. destruct (decide (i = j)) as [->|Hne].
  - rewrite lookup_insert_eq. by eexists.
  - by rewrite lookup_insert_ne.
Qed.

(** X7.  No record field is left out of the document: the key each field
    is sent under is a key of the mapping that is encoded. *)
Theorem no_field_dropped (w : LogstashWriter.t) (entry : Entry)
    (prefix k : string) :
  is_Some (Data entry !! k) →
  is_Some (buildFields w entry prefix !! sentKey prefix k).
Proof.
  intros [v Hv]. apply map_range_lookup in Hv.
  destruct (copyFields_lookup_member prefix _ ∅ _ _ Hv)
    as (k' & v' & _ & _ & Hc).
  assert (is_Some (copyFields prefix (map_range (Data entry)) ∅
                     !! sentKey prefix k)) as Hs by (by eexists).
  unfold buildFields.
  destruct (negb (String.eqb (LogstashWriter.Type_ w) ""));
    repeat first [apply insert_is_Some | apply moveCollision_is_Some];
    exact Hs.
Qed.

(** X8.  The key a field is sent under: a name made of the prefix and a
    rest is sent as the rest, once (a second copy of the prefix stays), and
    every other name is sent as it is. *)
Theorem sentKey_strips_once (prefix : string) :
  (∀ s, sentKey prefix (prefix ++ s) = s) ∧
  (∀ k, strings.HasPrefix k prefix = false → sentKey prefix k = k) ∧
  (∀ s, sentKey prefix (prefix ++ prefix ++ s) = prefix ++ s).
Proof.
  assert (∀ s, sentKey prefix (prefix ++ s) = s) as Hs.
  { intros s. unfold sentKey. rewrite HasPrefix_app, TrimPrefix_app.
    destruct prefix; reflexivity. }
  split; [done|]. split; [|intros s; apply Hs].
  intros k Hk. unfold sentKey. rewrite Hk. by rewrite andb_false_r.
Qed.

(** X9.  [WriteWithPrefix] hands the document to its writer in two
    [Write] calls, the JSON text with the newline of [Encode] and then a
    lone newline; when the record cannot be encoded it writes nothing and
    returns the encoder's error behind a fixed text. *)
Theorem WriteWithPrefix_chunks (w : LogstashWriter.t) (entry : Entry)
    (prefix : string) (sent : Recorder) :
  WriteWithPrefix w sent entry prefix =
    match json_Marshal (buildFields w entry prefix) with
    | inl doc => ((sent ++ [(doc ++ newline)%string; newline])%list, None)
    | inr err => (sent, Some ("Failed to marshal fields to JSON, " ++ err))
    end.
Proof.
  unfold WriteWithPrefix, Encode.
  destruct (json_Marshal (buildFields w entry prefix)) as [doc|err];
    [|reflexivity].
  unfold Write, Recorder_Writer. simpl. by rewrite <- app_assoc.
Qed.

(** *** The hook *)

(** X10.  What [Fire] leaves in the caller's record, in either mode and
    whether or not the record was encoded: the record's own fields and the
    defaults it lacked, without the fields whose name starts with a
    non-empty prefix.  The defaults stay in the caller's record. *)
Theorem Fire_record_after (h : Hook.t) (entry : Entry) (w : World)
    (k : string) :
  Data (Fire h entry w).1.1 !! k =
    if negb (String.eqb (Hook.hookOnlyPrefix h) "") &&
       strings.HasPrefix k (Hook.hookOnlyPrefix h)
    then None
    else match Data entry !! k with
         | Some v => Some v
         | None => Hook.alwaysSentFields h !! k
         end.
Proof.
  rewrite Fire_entry, filterHookOnly_lookup, mergedEntry_Data, lookup_union.
  destruct (_ && _); [done|].
  by destruct (Data entry !! k), (Hook.alwaysSentFields h !! k).
Qed.

(** X11.  Firing the same hook again on the record it has already been
    fired on changes nothing more in the record. *)
Theorem Fire_record_idempotent (h : Hook.t) (entry : Entry) (w w' : World) :
  (Fire h (Fire h entry w).1.1 w').1.1 = (Fire h entry w).1.1.
Proof.
  rewrite !Fire_entry.
  pose proof (filterHookOnly_frame h (mergedEntry h
                (filterHookOnly h (mergedEntry h entry)))) as (Ht & Hl & Hm).
  pose proof (filterHookOnly_frame h (mergedEntry h entry)) as (Ht' & Hl' & Hm').
  apply Entry_eq; [|by rewrite Ht|by rewrite Hl|by rewrite Hm].
  apply map_eq. intros k.
  rewrite !filterHookOnly_lookup, !mergedEntry_Data, !lookup_union.
  rewrite filterHookOnly_lookup, mergedEntry_Data, lookup_union.
  destruct (_ && _); [done|].
  by destruct (Data entry !! k), (Hook.alwaysSentFields h !! k).
Qed.

(** X12.  [filterHookOnly] only removes fields: what it keeps has the value
    it had, and what it removes starts with the prefix.  With the empty
    prefix it removes nothing, although every name starts with the empty
    string. *)
Theorem filterHookOnly_removes_only (h : Hook.t) (entry : Entry) :
  Data (filterHookOnly h entry) ⊆ Data entry ∧
  (∀ k, is_Some (Data entry !! k) →
        Data (filterHookOnly h entry) !! k = None →
        Hook.hookOnlyPrefix h ≠ "" ∧
        strings.HasPrefix k (Hook.hookOnlyPrefix h) = true) ∧
  (Hook.hookOnlyPrefix h = "" → filterHookOnly h entry = entry) ∧
  (∀ k, strings.HasPrefix k "" = true).
Proof.
  split; [|split; [|split]].
  - apply map_subseteq_spec. intros k v. rewrite filterHookOnly_lookup.
    by destruct (_ && _).
  - intros k [v Hv]. rewrite filterHookOnly_lookup, Hv.
    destruct (String.eqb (Hook.hookOnlyPrefix h) "") eqn:Hp; simpl; [done|].
    apply String.eqb_neq in Hp.
    by destruct (strings.HasPrefix k (Hook.hookOnlyPrefix h)).
  - intros Hp. unfold filterHookOnly. by rewrite Hp.
  - intros k. by destruct k.
Qed.

(** The borrowed buffer after a shipping-mode [Fire]. *)
Lemma Fire_heap_borrowed (h : Hook.t) (entry : Entry) (w : World) :
  Hook.filtering h = false →
  heap (Fire h entry w).1.2 !! (getFormatBuf w).1 =
    Some match json_Marshal (encodedFields h entry) with
         | inl doc => (doc ++ newline) ++ newline
         | inr _ => ""
         end.
Proof.
  intros Hf. rewrite Fire_shipping by done. simpl.
  destruct (json_Marshal (encodedFields h entry)); simpl.
  - unfold trySend. destruct (decide _); simpl; apply lookup_insert_eq.
  - apply lookup_insert_eq.
Qed.

(** X13.  A shipping-mode [Fire] whose record is encoded while the queue
    has room appends one task to the end of the queue, for the hook's
    endpoint and for the borrowed buffer; the buffer holds the document and
    its two newlines and nothing of what it held before; the pool has lost
    the buffer. *)
Theorem Fire_enqueues (h : Hook.t) (entry : Entry) (w : World)
    (doc : string) :
  Hook.filtering h = false →
  json_Marshal (encodedFields h entry) = inl doc →
  (length (entryChan w) < 1000)%nat →
  let b := (getFormatBuf w).1 in
  let w' := (Fire h entry w).1.2 in
  entryChan w' =
    (entryChan w ++
       [sendMessage.mk (Hook.protocol h) (Hook.address h) b])%list ∧
  heap w' !! b = Some ((doc ++ newline) ++ newline) ∧
  formatBuff w' = tail (formatBuff w) ∧
  (Fire h entry w).2 = None.
Proof.
  intros Hf Hdoc Hlen b w'. subst b w'.
  pose proof (Fire_frame h entry w) as (_ & _ & Hp). rewrite Hf in Hp.
  rewrite Fire_error, Hf. unfold encodeError. rewrite Hdoc.
  rewrite Fire_entryChan by done. unfold encodeError. rewrite Hdoc.
  rewrite decide_True by (unfold entryChan_cap; lia).
  split; [done|]. split; [|done].
  rewrite Fire_heap_borrowed by done. by rewrite Hdoc.
Qed.

Lemma getFormatBuf_heap_ne (w : World) (b : BufPtr) :
  b ≠ (getFormatBuf w).1 → heap (getFormatBuf w).2 !! b = heap w !! b.
Proof.
  unfold getFormatBuf. destruct (formatBuff w); simpl; intros Hne;
    by rewrite lookup_insert_ne.
Qed.

Lemma Fire_heap_ne (h : Hook.t) (entry : Entry) (w : World) (b : BufPtr) :
  b ≠ (getFormatBuf w).1 → heap (Fire h entry w).1.2 !! b = heap w !! b.
Proof.
  intros Hne. destruct (Hook.filtering h) eqn:Hf.
  { by rewrite Fire_filtering. }
  rewrite Fire_shipping by done. simpl.
  destruct (json_Marshal (encodedFields h entry)) as [doc|err]; simpl.
  - destruct (trySend_frame (taskOf h (getFormatBuf w).1)
      (set_heap (<[(getFormatBuf w).1 := (doc ++ newline) ++ newline]>
         (heap (getFormatBuf w).2)) (getFormatBuf w).2)) as (_ & -> & _).
    simpl. rewrite lookup_insert_ne by done. by apply getFormatBuf_heap_ne.
  - rewrite lookup_insert_ne by done. by apply getFormatBuf_heap_ne.
Qed.

(** X14.  A later [Fire] never touches the bytes of a task that is still
    queued: the buffer it borrows is not the buffer of a queued task. *)
Theorem queued_bytes_preserved (h : Hook.t) (entry : Entry) (w : World)
    (d : sendMessage.t) :
  BuffersOwned w →
  d ∈ entryChan w →
  d ∈ entryChan (Fire h entry w).1.2 ∧
  heap (Fire h entry w).1.2 !! sendMessage.data d =
    heap w !! sendMessage.data d.
Proof.
  intros Hw Hd. split.
  - destruct (Hook.filtering h) eqn:Hf.
    { by rewrite Fire_filtering. }
    rewrite Fire_entryChan by done.
    destruct (encodeError h entry); [done|].
    destruct (decide _); [|done]. apply elem_of_app. by left.
  - apply Fire_heap_ne. intros Heq.
    apply (getFormatBuf_not_owned w Hw). rewrite <- Heq.
    apply elem_of_app. right. apply list_elem_of_fmap. by exists d.
Qed.

(** X15.  In every state the system reaches from the start of the process,
    no buffer is idle and queued at once or queued twice, every such buffer
    is allocated, and the queue holds at most 1000 tasks. *)
Theorem reachable_invariants (net : Network) (w : World) :
  rtc (step net) (mkWorld [] [] ∅ ∅ []) w →
  BuffersOwned w ∧ (length (entryChan w) ≤ 1000)%nat.
Proof.
  assert (∀ w0 w1, rtc (step net) w0 w1 →
            BuffersOwned w0 ∧ (length (entryChan w0) ≤ entryChan_cap)%nat →
            BuffersOwned w1 ∧ (length (entryChan w1) ≤ entryChan_cap)%nat)
    as Hinv.
  { induction 1 as [|w0 w1 w2 Hstep _ IH]; [done|].
    intros [Hb Hc]. apply IH. split.
    - by apply (BuffersOwned_step net w0).
    - by apply (entryChan_cap_step net w0). }
  intros Hreach. apply (Hinv _ _ Hreach). split.
  - apply BuffersOwned_init.
  - simpl. unfold entryChan_cap. lia.
Qed.

(** *** The sender *)

Lemma processEntry_trace (net : Network) (d : sendMessage.t) (w : World) :
  trace (processEntry net d w) =
    (trace w ++ newEvents w (processEntry net d w))%list.
Proof.
  destruct (processEntry_puts net d w) as (evs & Ht & _).
  by rewrite (newEvents_app _ _ _ Ht).
Qed.

Lemma runSender_spec (net : Network) (n : nat) (w : World) :
  entryChan (runSender net n w) = drop n (entryChan w) ∧
  formatBuff (runSender net n w) =
    (rev (sendMessage.data <$> take n (entryChan w)) ++ formatBuff w)%list ∧
  heap (runSender net n w) = heap w ∧
  ∃ evs, trace (runSender net n w) = (trace w ++ evs)%list ∧
         List.filter isPut evs =
           EvPut <$> (sendMessage.data <$> take n (entryChan w)).
Proof.
  revert w. induction n as [|n IH]; intros w; simpl.
  { repeat split; try done. exists []. by rewrite app_nil_r. }
  unfold senderStep. destruct (entryChan w) as [|d q] eqn:Hq.
  { rewrite Hq. simpl. repeat split; try done.
    exists []. by rewrite app_nil_r. }
  pose proof (processEntry_frame net d (set_entryChan q w)) as (Hq1 & Hh1 & Hp1).
  pose proof (processEntry_trace net d (set_entryChan q w)) as Ht1.
  pose proof (SenderOutcome_counts net d _ _
                (processEntry_outcome net d (set_entryChan q w)))
    as (_ & _ & Hput1).
  destruct (IH (processEntry net d (set_entryChan q w)))
    as (Hq2 & Hp2 & Hh2 & evs2 & Ht2 & Hput2).
  rewrite Hq1 in Hq2, Hp2, Hput2. simpl in *.
  split; [done|]. split; [|split; [by rewrite Hh2, Hh1|]].
  - rewrite Hp2, Hp1. simpl. by rewrite <- app_assoc.
  - eexists. split.
    + rewrite Ht2, Ht1. simpl. by rewrite <- app_assoc.
    + rewrite List.filter_app, Hput1, Hput2. done.
Qed.

(** X16.  The sender takes the queued tasks oldest first: having worked
    through the queue it has put every task's buffer back into the pool, in
    the order of the queue, each once; the queue is empty and no buffer's
    bytes have changed. *)
Theorem processEntryData_fifo (net : Network) (w : World) :
  let w' := processEntryData net w in
  entryChan w' = [] ∧
  formatBuff w' =
    (rev (sendMessage.data <$> entryChan w) ++ formatBuff w)%list ∧
  heap w' = heap w ∧
  List.filter isPut (newEvents w w') =
    EvPut <$> (sendMessage.data <$> entryChan w).
Proof.
  simpl. unfold processEntryData.
  destruct (runSender_spec net (length (entryChan w)) w)
    as (Hq & Hp & Hh & evs & Ht & Hput).
  rewrite firstn_all in Hp, Hput. rewrite drop_all in Hq.
  by rewrite (newEvents_app _ _ _ Ht).
Qed.

Lemma insert_is_Some_conn (pool : gmap string Conn) (i j : string)
    (c : Conn) :
  is_Some (pool !! j) → is_Some (<[i := c]> pool !! j).
Proof.
  intros Hj. destruct (decide (i = j)) as [->|Hne].
  - rewrite lookup_insert_eq. by eexists.
  - by rewrite lookup_insert_ne.
Qed.

(** X17.  Working on a task the sender touches no connection of another
    endpoint, and it never removes a connection from the pool. *)
Theorem processEntry_connPool (net : Network) (d : sendMessage.t)
    (w : World) :
  (∀ key, key ≠ poolKey d →
     connPool (processEntry net d w) !! key = connPool w !! key) ∧
  (∀ key, is_Some (connPool w !! key) →
     is_Some (connPool (processEntry net d w) !! key)).
Proof.
  destruct (processEntry_outcome net d w)
    as [c n _ _ _ Hc|first err _ _ _ Hc|first c n r _ _ _ _ Hc]; rewrite Hc.
  - done.
  - done.
  - split.
    + intros key Hne. by rewrite lookup_insert_ne.
    + intros key Hkey. by apply insert_is_Some_conn.
Qed.

(** X18.  The sender reports a task on the error stream exactly when its
    bytes were not written: if some write of the task succeeded nothing is
    reported, the failure of a first write on a stale connection
    included, and otherwise one error is. *)
Theorem processEntry_reports (net : Network) (d : sendMessage.t)
    (w : World) :
  let evs := newEvents w (processEntry net d w) in
  existsb isStderr evs = negb (existsb isDelivered evs) ∧
  (countEvents isStderr evs ≤ 1)%nat ∧
  (countEvents isDelivered evs ≤ 1)%nat.
Proof.
  simpl. unfold countEvents.
  destruct (processEntry_outcome net d w)
    as [c n _ _ Ht _|first err Hfirst _ Ht _|first c n r Hfirst _ _ Ht _];
    rewrite (newEvents_app _ _ _ Ht).
  - simpl. repeat split; lia.
  - destruct Hfirst; simpl; repeat split; lia.
  - destruct Hfirst, r; simpl; repeat split; lia.
Qed.

Lemma SenderOutcome_payloads (net : Network) (d : sendMessage.t)
    (w w' : World) :
  SenderOutcome net d w w' →
  Forall (fun p => p = Bytes d w) (writtenPayloads (newEvents w w')) ∧
  Forall (fun pa => pa = (sendMessage.protocol d, sendMessage.address d))
    (dialedEndpoints (newEvents w w')).
Proof.
  intros [c n _ _ Ht _|first err Hfirst _ Ht _|first c n r Hfirst _ _ Ht _];
    rewrite (newEvents_app _ _ _ Ht).
  - simpl. split; repeat constructor.
  - destruct Hfirst; simpl; split; repeat constructor.
  - destruct Hfirst, r; simpl; split; repeat constructor.
Qed.

(** X19.  From [Fire] to the wire.  When a record is encoded and queued
    on an empty queue, the sender's next turn takes that task, empties the
    queue and gives the buffer back; whatever it writes to a connection is
    the document with its two newlines, and whatever it dials is the hook's
    endpoint. *)
Theorem Fire_then_send (net : Network) (h : Hook.t) (entry : Entry)
    (w : World) (doc : string) :
  Hook.filtering h = false →
  json_Marshal (encodedFields h entry) = inl doc →
  entryChan w = [] →
  let w' := (Fire h entry w).1.2 in
  ∃ w'', senderStep net w' = Some w'' ∧
         entryChan w'' = [] ∧
         formatBuff w'' = (getFormatBuf w).1 :: tail (formatBuff w) ∧
         Forall (fun p => p = (doc ++ newline) ++ newline)
           (writtenPayloads (newEvents w' w'')) ∧
         Forall (fun pa => pa = (Hook.protocol h, Hook.address h))
           (dialedEndpoints (newEvents w' w'')).
Proof.
  intros Hf Hdoc Hq w'.
  pose proof (Fire_entryChan h entry w Hf) as Hq'.
  pose proof (Fire_heap_borrowed h entry w Hf) as Hh.
  pose proof (Fire_frame h entry w) as (_ & _ & Hp).
  unfold encodeError in Hq'. rewrite Hdoc in Hq', Hh. rewrite Hf in Hp.
  rewrite Hq in Hq'. rewrite decide_True in Hq'
    by (simpl; unfold entryChan_cap; lia).
  fold w' in Hq', Hh, Hp. simpl in Hq'.
  set (d := taskOf h (getFormatBuf w).1) in *.
  exists (processEntry net d (set_entryChan [] w')).
  pose proof (processEntry_frame net d (set_entryChan [] w'))
    as (Hq2 & _ & Hp2).
  pose proof (SenderOutcome_payloads net d _ _
                (processEntry_outcome net d (set_entryChan [] w')))
    as [Hpay Hdial].
  unfold Bytes in Hpay. simpl in Hpay, Hdial, Hp2. rewrite Hh in Hpay.
  split; [|split; [done|split; [by rewrite Hp2, Hp|done]]].
  unfold senderStep. by rewrite Hq'.
Qed.

(** *** Failures *)

(** X20.  When the record cannot be encoded, a shipping-mode [Fire]
    returns the encoder's error behind the text of [WriteWithPrefix], the
    borrowed buffer is left empty, nothing is queued, and the caller's
    record has been merged and stripped all the same. *)
Theorem Fire_encode_failure (h : Hook.t) (entry : Entry) (w : World)
    (err : string) :
  Hook.filtering h = false →
  json_Marshal (encodedFields h entry) = inr err →
  (Fire h entry w).2 = Some ("Failed to marshal fields to JSON, " ++ err) ∧
  heap (Fire h entry w).1.2 !! (getFormatBuf w).1 = Some "" ∧
  entryChan (Fire h entry w).1.2 = entryChan w ∧
  (Fire h entry w).1.1 = filterHookOnly h (mergedEntry h entry).
Proof.
  intros Hf Herr.
  rewrite Fire_error, Hf, Fire_heap_borrowed, Fire_entryChan, Fire_entry
    by done.
  unfold encodeError. by rewrite Herr.
Qed.


(** *** The buffer pool *)

(** X22.  The buffer [getFormatBuf] lends is empty, no other buffer's
    bytes change, and the lent buffer is neither left in the pool nor the
    buffer of a queued task. *)
Theorem getFormatBuf_lends_empty (w : World) :
  BuffersOwned w →
  let b := (getFormatBuf w).1 in
  let w1 := (getFormatBuf w).2 in
  heap w1 !! b = Some "" ∧
  (∀ b', b' ≠ b → heap w1 !! b' = heap w !! b') ∧
  (b ∉ ownedBuffers w1) ∧
  entryChan w1 = entryChan w.
Proof.
  intros Hw b w1. subst b w1.
  pose proof (getFormatBuf_frame w) as (Hq & Hp & _).
  split; [apply getFormatBuf_heap|].
  split; [intros b' Hne; by apply getFormatBuf_heap_ne|].
  split; [|done].
  unfold ownedBuffers. rewrite Hq, Hp. by apply getFormatBuf_not_owned.
Qed.

(** *** Fields sent under one key *)

(** X23.  When the prefix makes several record fields share a key that the
    encoder does not set itself, the document holds under that key the sent
    value of one of the fields sent under it. *)
Theorem shared_key_holds_one (w : LogstashWriter.t) (entry : Entry)
    (prefix k : string) :
  is_Some (Data entry !! k) →
  sentKey prefix k ∉ reservedKeys →
  ∃ k' v', Data entry !! k' = Some v' ∧
           sentKey prefix k' = sentKey prefix k ∧
           buildFields w entry prefix !! sentKey prefix k =
             Some (sentValue v').
Proof.
  intros [v Hv] Hres. apply map_range_lookup in Hv.
  destruct (copyFields_lookup_member prefix _ ∅ _ _ Hv)
    as (k' & v' & Hin & Hk & Hc).
  exists k', v'. split; [by apply map_range_lookup|]. split; [done|].
  by rewrite buildFields_lookup_other.
Qed.
End Properties.

(** ** The repository's tests, and the claims on concrete inputs *)

(** [TestFire]: the record is encoded with the defaults merged in and the
    prefix removed, the pooled connection receives it, and the caller's
    record has lost the prefixed field. *)
Example TestFire :
  let r := Fire fireHook fireEntry pooledWorld in
  r.2 = None ∧
  map_to_list (Data r.1.1) =
    [("override", VStr "yes"); ("test-name", VStr "fire-test")] ∧
  trace (processEntryData upNet r.1.2) =
    [EvWrite 1%nat (fireDocument ++ newline ++ newline) None; EvPut 0%nat].
Proof. vm_compute. done. Qed.

(** [TestFilterHookOnly], second case. *)
Example TestFilterHookOnly :
  map_to_list (Data (filterHookOnly (Hook.mk "" "" true "" ∅ "_")
    (mkEntry (list_to_map [("_name", VStr "slimshady");
                           ("nick", VStr "blabla")])
       tt logrus.InfoLevel ""))) =
  [("nick", VStr "blabla")].
Proof. vm_compute. done. Qed.

(** A dead pooled connection: one failed write, one dial, one write on the
    new connection, which replaces the old one in the pool. *)
Example stale_connection_redialed :
  let r := Fire fireHook fireEntry pooledWorld in
  let w := processEntryData staleNet r.1.2 in
  trace w =
    [EvWrite 1%nat (fireDocument ++ newline ++ newline)
       (Some "write: broken pipe");
     EvDial "udp" "localhost:9999" (inl 2%nat);
     EvWrite 2%nat (fireDocument ++ newline ++ newline) None;
     EvPut 0%nat] ∧
  connPool w !! "udp:localhost:9999" = Some 2%nat ∧
  formatBuff w = [0%nat].
Proof. vm_compute. done. Qed.


(** C2 on a record without fields.  The buffer receives the JSON object and
    then two newline characters, one from [Encode] and one from the write
    that follows it, not the single one the wire format asks for. *)
Theorem WriteWithPrefix_writes_two_newlines :
  let out := (WriteWithPrefix (LogstashWriter.mk "" "") ("" : Buffer)
                plainEntry "").1 in
  json_Marshal (buildFields (LogstashWriter.mk "" "") plainEntry "") =
    inl plainDocument ∧
  out = plainDocument ++ newline ++ newline ∧
  out ≠ plainDocument ++ newline.
Proof. vm_compute. done. Qed.

(** C4 on the test record, with 1000 tasks queued. *)
Lemma Fire_full_queue_witness :
  Hook.filtering fireHook = false ∧
  length (entryChan fullWorld) = 1000%nat ∧
  encodeError fireHook fireEntry = None ∧
  (Fire fireHook fireEntry fullWorld).2 = None ∧
  entryChan (Fire fireHook fireEntry fullWorld).1.2 = entryChan fullWorld.
Proof.
  assert (Hook.filtering fireHook = false) as Hf by reflexivity.
  assert (length (entryChan fullWorld) = 1000%nat) as Hlen by reflexivity.
  assert (encodeError fireHook fireEntry = None) as Henc
    by (vm_compute; reflexivity).
  pose proof (Fire_full_queue fireHook fireEntry fullWorld Hf Hlen)
    as (_ & Hq & _ & _ & Herr).
  exact (conj Hf (conj Hlen (conj Henc (conj (Herr Henc) Hq)))).
Defined.

(** C6 on the test record: [->ignore] is gone after [Fire]. *)
Lemma Fire_strips_prefix_witness :
  Hook.hookOnlyPrefix fireHook ≠ "" ∧
  strings.HasPrefix "->ignore" (Hook.hookOnlyPrefix fireHook) = true ∧
  Data (Fire fireHook fireEntry startWorld).1.1 !! "->ignore" = None.
Proof.
  assert (Hook.hookOnlyPrefix fireHook ≠ "") as Hp by discriminate.
  assert (strings.HasPrefix "->ignore" (Hook.hookOnlyPrefix fireHook) = true)
    as Hk by reflexivity.
  exact (conj Hp (conj Hk
    (Fire_strips_prefix fireHook fireEntry startWorld "->ignore" Hp Hk))).
Defined.

(** C8 on a filter-only hook in a state with a queued task. *)
Lemma Fire_filter_only_witness :
  Hook.filtering filterHook = true ∧
  (Fire filterHook fireEntry busyWorld).1.2 = busyWorld ∧
  (Fire filterHook fireEntry busyWorld).2 = None.
Proof.
  assert (Hook.filtering filterHook = true) as Hf by reflexivity.
  pose proof (Fire_filter_only filterHook fireEntry busyWorld Hf)
    as (Hw & Herr & _).
  exact (conj Hf (conj Hw Herr)).
Defined.

(** C10 on a record that cannot be encoded: the borrowed buffer 3 is
    gone from the pool for good. *)
Lemma dropped_buffer_never_returned_witness :
  Hook.filtering fireHook = false ∧
  BuffersOwned busyWorld ∧
  (encodeError fireHook chanEntry ≠ None ∨
   (entryChan_cap ≤ length (entryChan busyWorld))%nat) ∧
  (getFormatBuf busyWorld).1 = 3%nat ∧
  formatBuff (Fire fireHook chanEntry busyWorld).1.2 = [] ∧
  ∀ w'', rtc (step downNet) (Fire fireHook chanEntry busyWorld).1.2 w'' →
         (getFormatBuf busyWorld).1 ∉ formatBuff w''.
Proof.
  assert (Hook.filtering fireHook = false) as Hf by reflexivity.
  assert (BuffersOwned busyWorld) as Hw
    by (apply (bool_decide_unpack _); vm_compute; exact I).
  assert (encodeError fireHook chanEntry ≠ None ∨
          (entryChan_cap ≤ length (entryChan busyWorld))%nat) as Hcase
    by (left; vm_compute; discriminate).
  pose proof (dropped_buffer_never_returned downNet fireHook chanEntry
                busyWorld Hf Hw Hcase)
    as (Hp & _ & _ & _ & Hlater & _).
  refine (conj Hf (conj Hw (conj Hcase
           (conj eq_refl (conj Hp _))))).
  intros w'' Hsteps. exact (proj1 (Hlater w'' Hsteps)).
Defined.

(** ** The further properties on concrete inputs *)

Ltac by_decide := apply (bool_decide_unpack _); vm_compute; exact I.

(** Which of two fields sent under one key reaches the document depends on
    the order in which the map is visited. *)
Example shared_key_depends_on_order :
  @buildFields exampleRuntime (LogstashWriter.mk "" "") clashEntry "->"
    !! "user" = Some (VStr "shown") ∧
  @buildFields reversedRuntime (LogstashWriter.mk "" "")
    (@mkEntry reversedRuntime (Data clashEntry) tt logrus.InfoLevel "login")
    "->" !! "user" = Some (VStr "hidden").
Proof. vm_compute. done. Qed.

(** X4 on the record with an [error] field. *)
Lemma Write_fields_witness :
  ("cause" ∉ reservedKeys) ∧
  buildFields (LogstashWriter.mk "" "") errorEntry "" !! "cause" =
    sentValue <$> Data errorEntry !! "cause".
Proof.
  assert ("cause" ∉ reservedKeys) as Hk by by_decide.
  exact (conj Hk (Write_fields (LogstashWriter.mk "" "") errorEntry "cause" Hk)).
Defined.

(** X5 on the same record: the [error] is sent as text. *)
Lemma copied_values_not_errors_witness :
  ("cause" ∉ reservedKeys) ∧
  buildFields (LogstashWriter.mk "" "") errorEntry "" !! "cause" =
    Some (VStr "disk full") ∧
  ∀ msg, VStr "disk full" ≠ VErr msg.
Proof.
  assert ("cause" ∉ reservedKeys) as Hk by by_decide.
  assert (buildFields (LogstashWriter.mk "" "") errorEntry "" !! "cause" =
          Some (VStr "disk full")) as Hx by (vm_compute; reflexivity).
  exact (conj Hk (conj Hx
    (copied_values_not_errors (LogstashWriter.mk "" "") errorEntry ""
       "cause" (VStr "disk full") Hk Hx))).
Defined.

(** X7 on a prefixed field. *)
Lemma no_field_dropped_witness :
  is_Some (Data clashEntry !! "->user") ∧
  is_Some (buildFields (LogstashWriter.mk "" "") clashEntry "->"
             !! sentKey "->" "->user").
Proof.
  assert (is_Some (Data clashEntry !! "->user")) as Hk
    by (exists (VStr "hidden"); vm_compute; reflexivity).
  exact (conj Hk
    (no_field_dropped (LogstashWriter.mk "" "") clashEntry "->" "->user" Hk)).
Defined.

(** X13 on the test record, with one task queued and one idle buffer that
    holds old bytes. *)
Lemma Fire_enqueues_witness :
  Hook.filtering fireHook = false ∧
  json_Marshal (encodedFields fireHook fireEntry) = inl fireDocument ∧
  (length (entryChan busyWorld) < 1000)%nat ∧
  entryChan (Fire fireHook fireEntry busyWorld).1.2 =
    [sendMessage.mk "udp" "localhost:9999" 5;
     sendMessage.mk "udp" "localhost:9999" 3] ∧
  heap (Fire fireHook fireEntry busyWorld).1.2 !! 3%nat =
    Some ((fireDocument ++ newline) ++ newline).
Proof.
  assert (Hook.filtering fireHook = false) as Hf by reflexivity.
  assert (json_Marshal (encodedFields fireHook fireEntry) = inl fireDocument)
    as Hdoc by (vm_compute; reflexivity).
  assert (length (entryChan busyWorld) < 1000)%nat as Hlen by (simpl; lia).
  pose proof (Fire_enqueues fireHook fireEntry busyWorld fireDocument
                Hf Hdoc Hlen) as (Hq & Hh & _ & _).
  exact (conj Hf (conj Hdoc (conj Hlen (conj Hq Hh)))).
Defined.

(** X14 on the same state: the queued task's bytes are kept. *)
Lemma queued_bytes_preserved_witness :
  BuffersOwned busyWorld ∧
  sendMessage.mk "udp" "localhost:9999" 5 ∈ entryChan busyWorld ∧
  heap (Fire fireHook fireEntry busyWorld).1.2 !! 5%nat =
    heap busyWorld !! 5%nat.
Proof.
  assert (BuffersOwned busyWorld) as Hw by by_decide.
  assert (sendMessage.mk "udp" "localhost:9999" 5 ∈ entryChan busyWorld)
    as Hd by apply list_elem_of_here.
  exact (conj Hw (conj Hd
    (proj2 (queued_bytes_preserved fireHook fireEntry busyWorld _ Hw Hd)))).
Defined.

(** X15 on the state after the first [Fire] of the process. *)
Lemma reachable_invariants_witness :
  rtc (step upNet) (mkWorld [] [] ∅ ∅ [])
    (Fire fireHook fireEntry startWorld).1.2 ∧
  BuffersOwned (Fire fireHook fireEntry startWorld).1.2 ∧
  (length (entryChan (Fire fireHook fireEntry startWorld).1.2) ≤ 1000)%nat.
Proof.
  assert (rtc (step upNet) (mkWorld [] [] ∅ ∅ [])
            (Fire fireHook fireEntry startWorld).1.2) as Hr
    by exact (rtc_once _ _ (step_Fire upNet startWorld fireHook fireEntry)).
  exact (conj Hr (reachable_invariants upNet _ Hr)).
Defined.

(** X19 on the test record with a pooled connection. *)
Lemma Fire_then_send_witness :
  Hook.filtering fireHook = false ∧
  json_Marshal (encodedFields fireHook fireEntry) = inl fireDocument ∧
  entryChan pooledWorld = [] ∧
  ∃ w'', senderStep upNet (Fire fireHook fireEntry pooledWorld).1.2 =
           Some w'' ∧
         Forall (fun p => p = (fireDocument ++ newline) ++ newline)
           (writtenPayloads
              (newEvents (Fire fireHook fireEntry pooledWorld).1.2 w'')).
Proof.
  assert (Hook.filtering fireHook = false) as Hf by reflexivity.
  assert (json_Marshal (encodedFields fireHook fireEntry) = inl fireDocument)
    as Hdoc by (vm_compute; reflexivity).
  assert (entryChan pooledWorld = []) as Hq by reflexivity.
  destruct (Fire_then_send upNet fireHook fireEntry pooledWorld fireDocument
              Hf Hdoc Hq) as (w'' & Hs & _ & _ & Hpay & _).
  exact (conj Hf (conj Hdoc (conj Hq (ex_intro _ w'' (conj Hs Hpay))))).
Defined.

(** X20 on the record with a channel. *)
Lemma Fire_encode_failure_witness :
  Hook.filtering fireHook = false ∧
  json_Marshal (encodedFields fireHook chanEntry) =
    inr "json: unsupported type: chan int" ∧
  (Fire fireHook chanEntry busyWorld).2 =
    Some ("Failed to marshal fields to JSON, " ++
          "json: unsupported type: chan int") ∧
  heap (Fire fireHook chanEntry busyWorld).1.2 !! 3%nat = Some "".
Proof.
  assert (Hook.filtering fireHook = false) as Hf by reflexivity.
  assert (json_Marshal (encodedFields fireHook chanEntry) =
          inr "json: unsupported type: chan int") as Herr
    by (vm_compute; reflexivity).
  pose proof (Fire_encode_failure fireHook chanEntry busyWorld _ Hf Herr)
    as (He & Hh & _ & _).
  exact (conj Hf (conj Herr (conj He Hh))).
Defined.

(** X22 on the state with one idle buffer that holds old bytes. *)
Lemma getFormatBuf_lends_empty_witness :
  BuffersOwned busyWorld ∧
  (getFormatBuf busyWorld).1 = 3%nat ∧
  heap busyWorld !! 3%nat = Some "old" ∧
  heap (getFormatBuf busyWorld).2 !! 3%nat = Some "".
Proof.
  assert (BuffersOwned busyWorld) as Hw by by_decide.
  pose proof (getFormatBuf_lends_empty busyWorld Hw) as (Hh & _).
  exact (conj Hw (conj eq_refl (conj eq_refl Hh))).
Defined.

(** X23 on the record with two fields sent as [user]. *)
Lemma shared_key_holds_one_witness :
  is_Some (Data clashEntry !! "user") ∧
  (sentKey "->" "user" ∉ reservedKeys) ∧
  ∃ k' v', Data clashEntry !! k' = Some v' ∧
           sentKey "->" k' = sentKey "->" "user" ∧
           buildFields (LogstashWriter.mk "" "") clashEntry "->"
             !! sentKey "->" "user" = Some (sentValue v').
Proof.
  assert (is_Some (Data clashEntry !! "user")) as Hk
    by (exists (VStr "shown"); vm_compute; reflexivity).
  assert (sentKey "->" "user" ∉ reservedKeys) as Hres by by_decide.
  exact (conj Hk (conj Hres
    (shared_key_holds_one (LogstashWriter.mk "" "") clashEntry "->" "user"
       Hk Hres))).
Defined.
